(** * hogo / pkg/concurrency/runner: a bounded-concurrency task runner

    A shallow embedding of [runner.go], [options.go] and
    [sync_error_slice.go], together with the parts of Go's [errors],
    [context] and [sync] packages the runner relies on.  The last part
    embeds [rwguarded/map.go], the map behind a read-write lock.

    Goroutines are modelled as an explicit pool of program counters; one
    atomic action of one goroutine is one step of the machine, and a
    schedule (a list of labels) picks the interleaving. *)

From stdpp Require Import base option list numbers.
From Stdlib Require Import NArith.

Set Default Proof Using "Type".

(** ** Go errors *)

(** Error values are compared by identity in Go: [errors.New] and
    [fmt.Errorf] allocate, so an address stands for the identity of the
    allocated value.  [wrapError] is an error with an [Unwrap() error] method
    (what [fmt.Errorf] builds for the verb %w). *)
Inductive errval : Type :=
| Canceled                                  (* context.Canceled *)
| DeadlineExceeded                          (* context.DeadlineExceeded *)
| errorString (addr : nat)                  (* errors.New(...) *)
| wrapError (addr : nat) (inner : errval).  (* fmt.Errorf("...: %w", inner) *)

#[global] Instance errval_eq_dec : EqDecision errval.
Proof. solve_decision. Defined.

(** The interface type [error]: [None] is Go's [nil]. *)
Abbreviation error := (option errval).

(** [errors.Is]'s loop over the [Unwrap] chain. *)
Fixpoint is_ (err target : errval) : bool :=
  bool_decide (err = target) ||
  match err with
  | wrapError _ inner => is_ inner target
  | _ => false
  end.

(** [errors.Is(err, target)]. *)
Definition errors_Is (err target : error) : bool :=
  match err, target with
  | Some e, Some t => is_ e t
  | _, _ => bool_decide (err = target)
  end.

(** ** Go contexts *)

(** A cancellable context is either live ([None]) or done, with the value
    of [Err()] and the cause that [context.Cause] reports. *)
Abbreviation context := (option (errval * errval)).

Definition Err (ctx : context) : error := fst <$> ctx.
Definition Cause (ctx : context) : error := snd <$> ctx.

(** The [CancelCauseFunc] of [context.WithCancelCause]: the first call
    wins, a nil cause is replaced by [Canceled]. *)
Definition cancel (cause : error) (ctx : context) : context :=
  match ctx with
  | Some _ => ctx
  | None => Some (Canceled, default Canceled cause)
  end.

(** How the caller's context can end: a cancel function or a deadline,
    each with an optional cause ([WithCancelCause], [WithDeadlineCause],
    [WithTimeoutCause]). *)
Inductive cancellation : Type :=
| ByCancel (cause : error)
| ByDeadline (cause : error).

Definition ended (how : cancellation) : errval * errval :=
  match how with
  | ByCancel cause => (Canceled, default Canceled cause)
  | ByDeadline cause => (DeadlineExceeded, default DeadlineExceeded cause)
  end.

(** A done parent cancels a child that is still live, handing down its
    own [Err()] and cause. *)
Definition propagate (parent child : context) : context :=
  match child with
  | Some _ => child
  | None => parent
  end.

(** ** options.go *)

Record options : Type := mkOptions {
  CancelOnFailure : bool;
  Limit : N;                                (* uint *)
}.

(** An [Option] is a function on a pointer to [options]: the package
    exports two constructors, and [options] itself is unexported, so
    these are all the values. *)
Inductive Option : Type :=
| WithCancelOnFailure
| WithLimit (limit : N).

Definition apply (opt : Option) (o : options) : options :=
  match opt with
  | WithCancelOnFailure => mkOptions true (Limit o)
  | WithLimit limit => mkOptions (CancelOnFailure o) limit
  end.

(** ** sync_error_slice.go *)

Abbreviation syncErrorSlice := (list error).

Definition Append (err : error) (e : syncErrorSlice) : syncErrorSlice :=
  e ++ [err].

Definition Clone (e : syncErrorSlice) : list error := e.

(** ** runner.go *)

(** The [Runner] struct, with the caller's context it was built from.
    [derived] is the context made by [context.WithCancelCause] when
    cancel-on-failure is on; then [r.ctx] is that child and
    [failCanceler.cancel] is its cancel function.  Otherwise [r.ctx] is
    the caller's context itself and [failCanceler.cancel] is nil.

    [sem_cap] and [sem_len] are [cap(r.sem)] and [len(r.sem)]; the nil
    channel has both 0.

    Two ghost fields log the calls of [failCanceler.Cancel] and the calls
    of the underlying [failCanceler.cancel]. *)
Record Runner : Type := mkRunner {
  parent : context;
  derived : option context;
  once : bool;                              (* failCanceler.once has fired *)
  wg : nat;
  errs : syncErrorSlice;
  sem_cap : nat;
  sem_len : nat;
  attempts : list error;                    (* ghost *)
  cancel_calls : list error;                (* ghost *)
}.

(** [r.ctx]. *)
Definition ctx (r : Runner) : context :=
  match derived r with
  | Some c => c
  | None => parent r
  end.

Definition ShouldCancel (r : Runner) : bool :=
  bool_decide (is_Some (derived r)).

(** [failCanceler.Cancel]: the body runs under [once.Do]. *)
Definition Cancel (err : error) (r : Runner) : Runner :=
  if once r then
    mkRunner (parent r) (derived r) true (wg r) (errs r)
      (sem_cap r) (sem_len r) (attempts r ++ [err]) (cancel_calls r)
  else
    mkRunner (parent r) (cancel err <$> derived r) true (wg r) (errs r)
      (sem_cap r) (sem_len r) (attempts r ++ [err]) (cancel_calls r ++ [err]).

(** Largest [int]; [make(chan struct{}, n)] panics for a larger [n]
    (64-bit platforms). *)
Definition maxInt : N := 2 ^ 63 - 1.

(** The loop of [New] over its options, from the zero [options]. *)
Definition configure (opts : list Option) : options :=
  foldl (fun o opt => apply opt o) (mkOptions false 0) opts.

Definition New (ctx : context) (opts : list Option) : option Runner :=
  let ro := configure opts in
  if (maxInt <? Limit ro)%N then None
  else
    Some (mkRunner ctx
            (if CancelOnFailure ro then Some ctx else None)
            false 0 [] (N.to_nat (Limit ro)) 0 [] []).

Definition hasLimit (r : Runner) : bool := bool_decide (0 < sem_cap r).

(** [r.sem <- struct{}{}]: [None] while the channel is full. *)
Definition maybeSemInc (r : Runner) : option Runner :=
  if hasLimit r then
    if bool_decide (sem_len r < sem_cap r) then
      Some (mkRunner (parent r) (derived r) (once r) (wg r) (errs r)
              (sem_cap r) (S (sem_len r)) (attempts r) (cancel_calls r))
    else None
  else Some r.

(** [<-r.sem]: [None] while the channel is empty. *)
Definition maybeSemDec (r : Runner) : option Runner :=
  if hasLimit r then
    match sem_len r with
    | S n =>
        Some (mkRunner (parent r) (derived r) (once r) (wg r) (errs r)
                (sem_cap r) n (attempts r) (cancel_calls r))
    | O => None
    end
  else Some r.

(** [r.wg.Add(1)]. *)
Definition wg_Add (r : Runner) : Runner :=
  mkRunner (parent r) (derived r) (once r) (S (wg r)) (errs r)
    (sem_cap r) (sem_len r) (attempts r) (cancel_calls r).

(** [r.wg.Done()]: [None] is the panic on a negative counter. *)
Definition wg_Done (r : Runner) : option Runner :=
  match wg r with
  | S n =>
      Some (mkRunner (parent r) (derived r) (once r) n (errs r)
              (sem_cap r) (sem_len r) (attempts r) (cancel_calls r))
  | O => None
  end.

(** [r.errs.Append(err)]. *)
Definition errs_Append (err : error) (r : Runner) : Runner :=
  mkRunner (parent r) (derived r) (once r) (wg r) (Append err (errs r))
    (sem_cap r) (sem_len r) (attempts r) (cancel_calls r).

Definition standard (cause : error) : bool :=
  errors_Is cause (Some Canceled) || errors_Is cause (Some DeadlineExceeded).

Definition causeForTaskSkip (ctx : context) : error :=
  let cause := Cause ctx in
  if standard cause then cause else Some Canceled.

(** [Wait]: [None] while [wg.Wait()] blocks. *)
Definition Wait (r : Runner) : option (list error) :=
  if bool_decide (wg r = 0) then Some (Clone (errs r)) else None.

(** The caller's context ends; a live derived context is cancelled with
    it. *)
Definition end_parent (how : cancellation) (r : Runner) : Runner :=
  match parent r with
  | Some _ => r
  | None =>
      let p := Some (ended how) in
      mkRunner p (propagate p <$> derived r) (once r) (wg r) (errs r)
        (sem_cap r) (sem_len r) (attempts r) (cancel_calls r)
  end.

(** ** One call of [Go] *)

(** Where a call [r.Go(f)] stands.  The first two points are in the
    caller's thread, the others in the goroutine [Go] starts. *)
Inductive pc : Type :=
| AtSemInc          (* r.maybeSemInc() *)
| AtWgAdd           (* r.wg.Add(1); go func() {...}() *)
| AtCtxCheck        (* if r.ctx.Err() != nil *)
| AtCall            (* result = f(), f running *)
| AtDefer           (* deferred: if result != nil { r.errs.Append(result) *)
| AtShouldCancel    (* if r.failCanceler.ShouldCancel() { ...Cancel(result) } *)
| AtWgDone          (* r.wg.Done() *)
| AtSemDec          (* r.maybeSemDec() *)
| Exited.

#[global] Instance pc_eq_dec : EqDecision pc.
Proof. solve_decision. Defined.

(** A task [f] is the value its body returns; [runs] counts the
    completed calls of the body (ghost); [result] is the captured
    variable [var result error]. *)
Record call : Type := mkCall {
  f : error;
  result : error;
  at_ : pc;
  runs : nat;
}.

Definition moved (c : call) (p : pc) : call :=
  mkCall (f c) (result c) p (runs c).

(** The next atomic action of a call. *)
Definition action (c : call) (r : Runner) : option (Runner * call) :=
  match at_ c with
  | AtSemInc => r' ← maybeSemInc r; Some (r', moved c AtWgAdd)
  | AtWgAdd => Some (wg_Add r, moved c AtCtxCheck)
  | AtCtxCheck =>
      if bool_decide (Err (ctx r) ≠ None)
      then Some (r, mkCall (f c) (causeForTaskSkip (ctx r)) AtDefer (runs c))
      else Some (r, moved c AtCall)
  | AtCall => Some (r, mkCall (f c) (f c) AtDefer (S (runs c)))
  | AtDefer =>
      if bool_decide (result c ≠ None)
      then Some (errs_Append (result c) r, moved c AtShouldCancel)
      else Some (r, moved c AtWgDone)
  | AtShouldCancel =>
      if ShouldCancel r
      then Some (Cancel (result c) r, moved c AtWgDone)
      else Some (r, moved c AtWgDone)
  | AtWgDone => r' ← wg_Done r; Some (r', moved c AtSemDec)
  | AtSemDec => r' ← maybeSemDec r; Some (r', moved c Exited)
  | Exited => None
  end.

(** ** The machine *)

Record world : Type := mkWorld {
  rn : Runner;
  calls : list call;                        (* in the order Go was called *)
}.

Inductive label : Type :=
| Go (f : error)                (* some thread calls r.Go(f) *)
| Act (i : nat)                 (* the i-th call of Go takes its next action *)
| End (how : cancellation).     (* the caller's context ends *)

Definition step (l : label) (w : world) : option world :=
  match l with
  | Go f => Some (mkWorld (rn w) (calls w ++ [mkCall f None AtSemInc 0]))
  | Act i =>
      c ← calls w !! i;
      '(r', c') ← action c (rn w);
      Some (mkWorld r' (<[i:=c']> (calls w)))
  | End how => Some (mkWorld (end_parent how (rn w)) (calls w))
  end.

Fixpoint run (sched : list label) (w : world) : option world :=
  match sched with
  | [] => Some w
  | l :: sched' => w' ← step l w; run sched' w'
  end.

Definition start (r : Runner) : world := mkWorld r [].

(** ** Reading a world *)

(** The call holds a slot of the semaphore (when there is one). *)
Definition holds_slot (c : call) : bool :=
  match at_ c with
  | AtSemInc | Exited => false
  | _ => true
  end.

(** The call is counted by the wait group. *)
Definition in_wg (c : call) : bool :=
  match at_ c with
  | AtCtxCheck | AtCall | AtDefer | AtShouldCancel | AtWgDone => true
  | _ => false
  end.

(** The body of the task is executing. *)
Definition running (c : call) : bool := bool_decide (at_ c = AtCall).

(** [Go] has returned to its caller. *)
Definition returned (c : call) : bool :=
  match at_ c with
  | AtSemInc | AtWgAdd => false
  | _ => true
  end.

(** The goroutine is past [r.wg.Done()]. *)
Definition quiesced (c : call) : bool :=
  match at_ c with
  | AtSemDec | Exited => true
  | _ => false
  end.

(** [result] has been assigned. *)
Definition past_check (c : call) : bool :=
  match at_ c with
  | AtSemInc | AtWgAdd | AtCtxCheck | AtCall => false
  | _ => true
  end.

(** What the call has appended to [r.errs] so far. *)
Definition recorded (c : call) : error :=
  match at_ c with
  | AtShouldCancel | AtWgDone | AtSemDec | Exited => result c
  | _ => None
  end.

(** What the call has passed to [failCanceler.Cancel] so far, when
    cancel-on-failure is on. *)
Definition tried (c : call) : error :=
  match at_ c with
  | AtWgDone | AtSemDec | Exited => result c
  | _ => None
  end.

(** The task was skipped: its goroutine went past the context check
    without calling the body. *)
Definition skipped (c : call) : bool :=
  past_check c && bool_decide (runs c = 0).

(** All calls of [Go] have returned and a [Wait] called now returns. *)
Definition joined (w : world) : bool :=
  bool_decide (wg (rn w) = 0) && forallb returned (calls w).

Fixpoint count {A : Type} (p : A -> bool) (l : list A) : nat :=
  match l with
  | [] => 0
  | x :: l' => (if p x then 1 else 0) + count p l'
  end.

(** The non-nil errors of a list, in order. *)
Definition failures (l : list error) : list error :=
  Some <$> omap id l.

(** Rank of a program point: every action lowers it. *)
Definition rank (c : call) : nat :=
  match at_ c with
  | AtSemInc => 8 | AtWgAdd => 7 | AtCtxCheck => 6 | AtCall => 5
  | AtDefer => 4 | AtShouldCancel => 3 | AtWgDone => 2 | AtSemDec => 1
  | Exited => 0
  end.

Definition fuel (w : world) : nat := sum_list (rank <$> calls w).

(** ** Lists *)

Section lists.
Context {A B : Type}.
Implicit Types (l : list A) (p : A -> bool) (g : A -> option B).

Lemma count_app p l1 l2 : count p (l1 ++ l2) = count p l1 + count p l2.
Proof. induction l1 as [|x l1 IH]; simpl; [done | rewrite IH; lia]. Qed.

Lemma count_insert p l i x y :
  l !! i = Some x ->
  count p (<[i:=y]> l) + (if p x then 1 else 0)
  = count p l + (if p y then 1 else 0).
Proof.
  revert i. induction l as [|z l IH]; intros [|i] Hi; simplify_eq/=.
  - lia.
  - specialize (IH _ Hi). lia.
Qed.

Lemma count_le p q l :
  (forall x, p x = true -> q x = true) -> count p l <= count q l.
Proof.
  intros Hpq. induction l as [|x l IH]; simpl; [done|].
  destruct (p x) eqn:Hp; [rewrite (Hpq _ Hp)|]; lia.
Qed.

Lemma count_zero p l : count p l = 0 -> Forall (fun x => p x = false) l.
Proof.
  induction l as [|x l IH]; simpl; [constructor|].
  destruct (p x) eqn:Hp; [lia|]. intros H. constructor; auto.
Qed.

Lemma count_pos p l x : x ∈ l -> p x = true -> 0 < count p l.
Proof.
  induction 1 as [|? ? ? ? IH]; simpl; intros Hp.
  - rewrite Hp. lia.
  - specialize (IH Hp). lia.
Qed.

Lemma omap_insert_same g l i x y :
  l !! i = Some x -> g y = g x -> omap g (<[i:=y]> l) = omap g l.
Proof.
  revert i. induction l as [|z l IH]; intros [|i] Hi Hg; simplify_eq/=.
  - by rewrite Hg.
  - by rewrite (IH _ Hi Hg).
Qed.

Lemma omap_insert_new g l i x y b :
  l !! i = Some x -> g x = None -> g y = Some b ->
  omap g (<[i:=y]> l) ≡ₚ omap g l ++ [b].
Proof.
  revert i. induction l as [|z l IH]; intros [|i] Hi Hx Hy; simplify_eq/=.
  - rewrite Hx, Hy. by rewrite <- Permutation_cons_append.
  - destruct (g z); simpl; by rewrite (IH _ Hi Hx Hy).
Qed.

Lemma omap_same g1 g2 l :
  Forall (fun x => g1 x = g2 x) l -> omap g1 l = omap g2 l.
Proof. induction 1 as [|x l Hx _ IH]; csimpl; [done|]. by rewrite Hx, IH. Qed.

Lemma sum_list_insert (h : A -> nat) l i x y :
  l !! i = Some x ->
  sum_list (h <$> <[i:=y]> l) + h x = sum_list (h <$> l) + h y.
Proof.
  revert i. induction l as [|z l IH]; intros [|i] Hi; simplify_eq/=.
  - lia.
  - specialize (IH _ Hi). lia.
Qed.
End lists.

Lemma omap_id_fmap {A B : Type} (g : A -> option B) (l : list A) :
  omap id (g <$> l) = omap g l.
Proof. induction l as [|x l IH]; csimpl; [done|]. by rewrite IH. Qed.

Lemma failures_fmap {A : Type} (g : A -> error) (l : list A) :
  failures (g <$> l) = Some <$> omap g l.
Proof. unfold failures. by rewrite omap_id_fmap. Qed.

Lemma failures_length (l : list error) :
  length (failures l) = count (fun e => bool_decide (e <> None)) l.
Proof.
  unfold failures. rewrite length_fmap.
  induction l as [|[e|] l IH]; csimpl; [done| |done]. by rewrite IH.
Qed.

(** ** Invariants of every execution *)

(** The body was called and [result] holds what it returned. *)
Definition ran (c : call) : Prop := runs c = 1 /\ result c = f c.

(** The body was not called and [result] holds the cause of the skip. *)
Definition skip_of (r : Runner) (c : call) : Prop :=
  runs c = 0 /\ Err (ctx r) <> None /\ result c = causeForTaskSkip (ctx r).

Definition call_ok (r : Runner) (c : call) : Prop :=
  if past_check c
  then (ran c \/ skip_of r c) /\ (at_ c = AtShouldCancel -> result c <> None)
  else result c = None /\ runs c = 0.

Record inv (w : world) : Prop := mkInv {
  inv_sem :
    sem_len (rn w) = if hasLimit (rn w) then count holds_slot (calls w) else 0;
  inv_cap : sem_len (rn w) <= sem_cap (rn w);
  inv_wg : wg (rn w) = count in_wg (calls w);
  inv_errs : errs (rn w) ≡ₚ Some <$> omap recorded (calls w);
  inv_attempts :
    attempts (rn w) ≡ₚ
      if ShouldCancel (rn w) then Some <$> omap tried (calls w) else [];
  inv_once : once (rn w) = true <-> attempts (rn w) <> [];
  inv_cancel_calls : cancel_calls (rn w) = take 1 (attempts (rn w));
  inv_derived : forall d, derived (rn w) = Some d ->
    (cancel_calls (rn w) = [] -> d = parent (rn w)) /\
    (parent (rn w) = None ->
     d = match cancel_calls (rn w) with
         | [] => None
         | e :: _ => Some (Canceled, default Canceled e)
         end);
  inv_trigger : parent (rn w) = None ->
    forall e, e ∈ cancel_calls (rn w) ->
    exists c, c ∈ calls w /\ runs c = 1 /\ f c = e /\ is_Some e;
  inv_calls : Forall (call_ok (rn w)) (calls w);
}.

Lemma count_lookup {A : Type} (p : A -> bool) (l : list A) i x :
  l !! i = Some x -> (if p x then 1 else 0) <= count p l.
Proof.
  revert i. induction l as [|z l IH]; intros [|i] Hi; simplify_eq/=.
  - lia.
  - specialize (IH _ Hi). lia.
Qed.

Lemma call_ok_mono r r' c :
  (Err (ctx r) <> None -> ctx r' = ctx r) -> call_ok r c -> call_ok r' c.
Proof.
  unfold call_ok, skip_of. intros Hctx. destruct (past_check c); [|done].
  intros [[?|(? & Hdone & ?)] ?]; split; auto.
  right. by rewrite (Hctx Hdone).
Qed.

Lemma calls_ok_mono r r' l :
  (Err (ctx r) <> None -> ctx r' = ctx r) ->
  Forall (call_ok r) l -> Forall (call_ok r') l.
Proof. intros Hctx. apply Forall_impl. intros c. by apply call_ok_mono. Qed.

(** A done context does not change any more. *)
Lemma ctx_Cancel err r : Err (ctx r) <> None -> ctx (Cancel err r) = ctx r.
Proof.
  unfold Cancel, ctx. destruct (once r); simpl; [done|].
  destruct (derived r) as [[d|]|]; simpl; done.
Qed.

Lemma ctx_end_parent how r :
  Err (ctx r) <> None -> ctx (end_parent how r) = ctx r.
Proof.
  intros Hdone. unfold end_parent. destruct (parent r) eqn:Hp; [done|].
  unfold ctx in *. simpl.
  destruct (derived r) as [[d|]|]; simpl in *; rewrite ?Hp in *; done.
Qed.

Lemma inv_start r opts pctx : New pctx opts = Some r -> inv (start r).
Proof.
  unfold New. simpl. case_match; [done|]. intros [= <-].
  split; simpl; try done.
  - by case_match.
  - lia.
  - by case_match.
  - intros d Hd. case_match; by simplify_eq.
  - intros _ e He. by apply elem_of_nil in He.
Qed.

Lemma inv_Go w f0 :
  inv w -> inv (mkWorld (rn w) (calls w ++ [mkCall f0 None AtSemInc 0])).
Proof.
  intros [Hsem Hcap Hwg Herrs Hatt Honce Hcc Hder Htrig Hcalls].
  split; simpl; try done.
  - rewrite count_app. simpl. rewrite Hsem. destruct (hasLimit _); lia.
  - rewrite count_app. simpl. lia.
  - rewrite omap_app. simpl. by rewrite app_nil_r.
  - rewrite omap_app. simpl. by rewrite app_nil_r.
  - intros Hp e He. destruct (Htrig Hp e He) as (c & Hc & ?).
    exists c. split; [|done]. apply elem_of_app. by left.
  - apply Forall_app. split; [done|]. by repeat constructor.
Qed.

Lemma inv_End w how : inv w -> inv (mkWorld (end_parent how (rn w)) (calls w)).
Proof.
  intros Hinv. pose proof (ctx_end_parent how (rn w)) as Hctx.
  unfold end_parent in *. destruct (parent (rn w)) eqn:Hp.
  { by destruct w. }
  destruct Hinv as [Hsem Hcap Hwg Herrs Hatt Honce Hcc Hder Htrig Hcalls].
  split; simpl; try done.
  - unfold ShouldCancel in *. simpl.
    destruct (derived (rn w)); simpl; done.
  - intros d Hd. split; [|done]. intros Hnil.
    destruct (derived (rn w)) as [d0|] eqn:Hd0; simplify_eq/=.
    destruct (Hder _ eq_refl) as [H1 _]. by rewrite (H1 Hnil), Hp.
  - by eapply calls_ok_mono.
Qed.

Lemma elem_of_insert_keep {A : Type} (P : A -> Prop) (l : list A) i x y z :
  l !! i = Some x -> z ∈ l -> P z -> (z = x -> P y) ->
  exists z', z' ∈ <[i:=y]> l /\ P z'.
Proof.
  intros Hi Hz HP Hxy. apply list_elem_of_lookup in Hz as [j Hj].
  destruct (decide (i = j)) as [->|Hne].
  - exists y. split; [|apply Hxy; congruence].
    apply list_elem_of_lookup. exists j.
    apply list_lookup_insert_eq. by eapply lookup_lt_Some.
  - exists z. split; [|done].
    apply list_elem_of_lookup. exists j. by rewrite list_lookup_insert_ne.
Qed.

Lemma call_ok_moved r c p :
  past_check c = true -> past_check (moved c p) = true ->
  p <> AtShouldCancel -> call_ok r c -> call_ok r (moved c p).
Proof.
  unfold call_ok. intros -> -> Hp [Hc _]. split; [done|]. simpl. congruence.
Qed.

(** Evaluate the observers of a call whose program point is known. *)
Ltac settle Hat :=
  repeat match goal with
  | H : context [if ?p ?c then _ else _] |- _ =>
      lazymatch p with holds_slot => idtac | in_wg => idtac end;
      let E := fresh in
      destruct (p c) eqn:E;
      unfold holds_slot, in_wg in E; cbn in E; rewrite ?Hat in E;
      try discriminate E; clear E
  end.

Lemma take_1_app {A : Type} (l k : list A) :
  l <> [] -> take 1 (l ++ k) = take 1 l.
Proof. by destruct l. Qed.

(** [failCanceler.Cancel] from a call at [AtShouldCancel]. *)
Lemma inv_Act_Cancel w i c :
  inv w -> calls w !! i = Some c -> at_ c = AtShouldCancel ->
  ShouldCancel (rn w) = true ->
  inv (mkWorld (Cancel (result c) (rn w)) (<[i:=moved c AtWgDone]> (calls w))).
Proof.
  intros [Hsem Hcap Hwg Herrs Hatt Honce Hcc Hder Htrig Hcalls] Hi Hat Hsc.
  pose proof (Forall_lookup_1 _ _ _ _ Hcalls Hi) as Hc.
  pose proof (count_insert holds_slot _ _ _ (moved c AtWgDone) Hi) as Hh.
  pose proof (count_insert in_wg _ _ _ (moved c AtWgDone) Hi) as Hw.
  unfold call_ok, past_check in Hc. rewrite Hat in Hc.
  destruct Hc as [Hc Hres]. specialize (Hres eq_refl).
  destruct (result c) as [e|] eqn:He; [clear Hres|done].
  settle Hat.
  assert (Hcalls' : Forall (call_ok (Cancel (Some e) (rn w)))
                      (<[i:=moved c AtWgDone]> (calls w))).
  { apply Forall_insert.
    - eapply calls_ok_mono; [|done]. apply ctx_Cancel.
    - unfold call_ok, past_check. simpl. split; [|done].
      destruct Hc as [Hc|(? & Hdone & Hr)]; [by left|right].
      unfold skip_of. by rewrite (ctx_Cancel _ _ Hdone). }
  rewrite Hsc in Hatt. unfold ShouldCancel in Hsc.
  apply bool_decide_eq_true in Hsc as [d Hd].
  assert (Htried : Some <$> omap tried (<[i:=moved c AtWgDone]> (calls w))
                   ≡ₚ attempts (rn w) ++ [Some e]).
  { rewrite (omap_insert_new tried _ _ _ _ e Hi).
    - by rewrite fmap_app, <- Hatt.
    - unfold tried. by rewrite Hat.
    - done. }
  assert (Hrec : omap recorded (<[i:=moved c AtWgDone]> (calls w))
                 = omap recorded (calls w)).
  { apply (omap_insert_same _ _ _ _ _ Hi). unfold recorded. simpl.
    by rewrite Hat. }
  unfold Cancel in *. destruct (once (rn w)) eqn:Ho.
  - assert (attempts (rn w) <> []) as Hne by by apply Honce.
    split; simpl; unfold hasLimit, ShouldCancel in *; simpl.
    + rewrite Hsem. destruct (bool_decide _); lia.
    + done.
    + lia.
    + by rewrite Hrec.
    + rewrite Hd. by rewrite bool_decide_true by eauto.
    + split; [|done]. intros _. by destruct (attempts (rn w)).
    + by rewrite take_1_app.
    + done.
    + intros Hp e0 He0. destruct (Htrig Hp e0 He0) as (c0 & Hc0 & Hr0 & Hf0 & Hs0).
      eapply (elem_of_insert_keep (fun z => runs z = 1 /\ f z = e0 /\ is_Some e0));
        [done|done|done|].
      by intros ->.
    + done.
  - assert (attempts (rn w) = []) as Hnil.
    { destruct (attempts (rn w)) eqn:Ha; [done|].
      assert (false = true) by by apply Honce. congruence. }
    rewrite Hnil in *. simpl in Hcc.
    destruct (Hder _ Hd) as [Hd1 Hd2]. specialize (Hd1 Hcc).
    split; simpl; unfold hasLimit, ShouldCancel in *; simpl.
    + rewrite Hsem. destruct (bool_decide _); lia.
    + done.
    + lia.
    + by rewrite Hrec.
    + rewrite Hd. simpl. by rewrite Htried.
    + done.
    + by rewrite Hcc.
    + intros d' Hd'. rewrite Hd in Hd'. simplify_eq/=. rewrite Hcc. simpl.
      split; [done|]. intros Hp. by rewrite Hp.
    + intros Hp e0 He0. rewrite Hcc in He0. apply list_elem_of_singleton in He0 as ->.
      exists (moved c AtWgDone). split.
      { apply list_elem_of_lookup. exists i.
        apply list_lookup_insert_eq. by eapply lookup_lt_Some. }
      destruct Hc as [[Hr Hf]|(_ & Hdone & _)].
      * simpl. rewrite <- Hf, He. eauto.
      * exfalso. apply Hdone. unfold ctx. by rewrite Hd, Hd1, Hp.
    + done.
Qed.

(** The parts of the invariant that an action leaves alone. *)
Ltac framed Hi Hat Hkeep Hlim Hcalls :=
  simpl; unfold hasLimit, ShouldCancel in *; simpl;
  first
    [ done
    | lia
    | by (rewrite Hlim; lia)
    | by (rewrite (omap_insert_same _ _ _ _ _ Hi)
            by (unfold recorded, tried; simpl; by rewrite ?Hat))
    | by (intros ? ? ?; apply Hkeep; auto)
    | apply Forall_insert;
      [ by (eapply calls_ok_mono; [|exact Hcalls]; intros _; unfold ctx)
      | unfold call_ok, past_check; simpl ]
    | idtac ].

Lemma inv_Act w i c r' c' :
  inv w -> calls w !! i = Some c -> action c (rn w) = Some (r', c') ->
  inv (mkWorld r' (<[i:=c']> (calls w))).
Proof.
  intros Hinv Hi Hact.
  destruct (decide (at_ c = AtShouldCancel /\ ShouldCancel (rn w) = true))
    as [[Hat Hsc]|Hno].
  { unfold action in Hact. rewrite Hat, Hsc in Hact. simplify_eq.
    by apply inv_Act_Cancel. }
  destruct Hinv as [Hsem Hcap Hwg Herrs Hatt Honce Hcc Hder Htrig Hcalls].
  pose proof (Forall_lookup_1 _ _ _ _ Hcalls Hi) as Hc.
  pose proof (count_insert holds_slot _ _ _ c' Hi) as Hh.
  pose proof (count_insert in_wg _ _ _ c' Hi) as Hw.
  assert (Hkeep : forall e, (exists c0, c0 ∈ calls w /\ runs c0 = 1 /\ f c0 = e /\ is_Some e) ->
            (runs c = 1 -> runs c' = 1) -> f c' = f c ->
            exists c0, c0 ∈ <[i:=c']> (calls w) /\ runs c0 = 1 /\ f c0 = e /\ is_Some e).
  { intros e (c0 & Hc0 & Hr & Hf & He) Hruns Hfc.
    eapply (elem_of_insert_keep (fun z => runs z = 1 /\ f z = e /\ is_Some e));
      [done|done|done|].
    intros ->. rewrite Hfc. auto. }
  unfold call_ok, past_check in Hc.
  unfold action, maybeSemInc, maybeSemDec, wg_Done in Hact.
  destruct (hasLimit (rn w)) eqn:Hlim.
  all: destruct (at_ c) eqn:Hat; simpl in Hact, Hc.
  all: repeat match type of Hact with
       | context [if ?b then _ else _] => destruct b eqn:?
       | context [match ?x with _ => _ end] => destruct x eqn:?
       end; simplify_option_eq.
  all: try (exfalso; by apply Hno).
  all: settle Hat.
  all: split; framed Hi Hat Hkeep Hlim Hcalls.
  all: try exact Hc.
  all: try (destruct Hc as [Hc Hres]).
  all: try match goal with
       | H : bool_decide ?P = _ |- context [bool_decide ?P] => rewrite H
       end.
  all: try exact Hatt.
  all: repeat match goal with
       | H : bool_decide _ = true |- _ => apply bool_decide_eq_true in H
       | H : bool_decide _ = false |- _ => apply bool_decide_eq_false in H
       end.
  all: try match goal with
       | H : ~ (result ?x <> None) |- _ =>
           assert (result x = None)
             by (destruct (result x); [exfalso; by apply H|done])
       end.
  all: try by (rewrite (omap_insert_same _ _ _ _ _ Hi)
                 by (unfold recorded, tried; simpl; rewrite ?Hat; done)).
  all: try by (intros Hp e He; apply Hkeep; [by apply Htrig|simpl; lia|done]).
  all: try (destruct (result c) as [e|] eqn:He; [|done]; unfold Append;
            rewrite (omap_insert_new recorded _ _ _ _ e Hi)
              by (unfold recorded; simpl; rewrite ?Hat; done);
            by rewrite fmap_app, Herrs).
  all: unfold ran, skip_of, ctx in *; simpl in *.
  all: split; [|by intros ?].
  all: first [ exact Hc | left; split; [lia|done] | right; split_and!; done ].
Qed.


Lemma inv_step l w w' : inv w -> step l w = Some w' -> inv w'.
Proof.
  intros Hinv Hstep. destruct l as [f0|i|how]; simpl in Hstep.
  - simplify_eq. by apply inv_Go.
  - destruct (calls w !! i) as [c|] eqn:Hi; [|done]. simpl in Hstep.
    destruct (action c (rn w)) as [[r' c']|] eqn:Hact; simplify_eq/=.
    by eapply inv_Act.
  - simplify_eq. by apply inv_End.
Qed.

Lemma inv_run sched w w' : inv w -> run sched w = Some w' -> inv w'.
Proof.
  revert w. induction sched as [|l sched IH]; intros w Hinv Hrun;
    simpl in Hrun; [by simplify_eq|].
  destruct (step l w) as [w1|] eqn:Hstep; [|done].
  eapply IH; [|done]. by eapply inv_step.
Qed.

Lemma run_cons l sched w :
  run (l :: sched) w = w' ← step l w; run sched w'.
Proof. done. Qed.

Lemma run_app s1 s2 w :
  run (s1 ++ s2) w = w' ← run s1 w; run s2 w'.
Proof.
  revert w. induction s1 as [|l s1 IH]; intros w; simpl; [done|].
  destruct (step l w); simpl; [apply IH|done].
Qed.

(** What an execution of a fresh runner can reach. *)
Definition reachable (r : Runner) (w : world) : Prop :=
  exists sched, run sched (start r) = Some w.

Lemma inv_reachable pctx opts r w :
  New pctx opts = Some r -> reachable r w -> inv w.
Proof. intros Hnew [sched Hrun]. eapply inv_run; [|done]. by eapply inv_start. Qed.

(** ** What an execution never changes *)

Lemma New_fields pctx opts r :
  New pctx opts = Some r ->
  parent r = pctx /\
  derived r = (if CancelOnFailure (configure opts) then Some pctx else None) /\
  sem_cap r = N.to_nat (Limit (configure opts)) /\
  (Limit (configure opts) <= maxInt)%N.
Proof.
  unfold New. simpl. destruct (N.ltb_spec maxInt (Limit (configure opts)));
    [done|]. by intros [= <-].
Qed.

Lemma action_frame c r r' c' :
  action c r = Some (r', c') ->
  sem_cap r' = sem_cap r /\ parent r' = parent r /\
  ShouldCancel r' = ShouldCancel r /\ f c' = f c /\
  (Err (ctx r) <> None -> ctx r' = ctx r).
Proof.
  unfold action, maybeSemInc, maybeSemDec, wg_Done, hasLimit. intros Hact.
  destruct (decide (at_ c = AtShouldCancel /\ ShouldCancel r = true))
    as [[Hat Hsc]|Hno].
  { rewrite Hat, Hsc in Hact. simplify_eq. split_and!; try done.
    - unfold Cancel. by destruct (once r).
    - unfold Cancel. by destruct (once r).
    - unfold Cancel, ShouldCancel. destruct (once r); simpl; [done|].
      by destruct (derived r).
    - apply ctx_Cancel. }
  destruct (at_ c) eqn:Hat; simpl in Hact.
  all: repeat match type of Hact with
       | context [if ?b then _ else _] => destruct b eqn:?
       | context [match ?x with _ => _ end] => destruct x eqn:?
       end; simplify_option_eq; try done.
  exfalso. by apply Hno.
Qed.

Lemma step_frame l w w' :
  step l w = Some w' ->
  sem_cap (rn w') = sem_cap (rn w) /\
  ShouldCancel (rn w') = ShouldCancel (rn w) /\
  (Err (ctx (rn w)) <> None -> ctx (rn w') = ctx (rn w)) /\
  (parent (rn w') = None -> parent (rn w) = None).
Proof.
  destruct l as [f0|i|how]; simpl; intros Hstep.
  - by simplify_eq.
  - destruct (calls w !! i) as [c|]; [|done]. simpl in Hstep.
    destruct (action c (rn w)) as [[r' c']|] eqn:Hact; simplify_eq/=.
    destruct (action_frame _ _ _ _ Hact) as (? & Hp & ? & ? & ?).
    split_and!; try done. by rewrite Hp.
  - simplify_eq/=. split_and!.
    + unfold end_parent. by destruct (parent (rn w)).
    + unfold end_parent, ShouldCancel. destruct (parent (rn w)); [done|].
      simpl. by destruct (derived (rn w)).
    + apply ctx_end_parent.
    + unfold end_parent. destruct (parent (rn w)) eqn:Hp; [|done].
      intros H. by rewrite Hp in H.
Qed.

Lemma run_frame sched w w' :
  run sched w = Some w' ->
  sem_cap (rn w') = sem_cap (rn w) /\
  ShouldCancel (rn w') = ShouldCancel (rn w) /\
  (Err (ctx (rn w)) <> None -> ctx (rn w') = ctx (rn w)) /\
  (parent (rn w') = None -> parent (rn w) = None).
Proof.
  revert w. induction sched as [|l sched IH]; intros w Hrun; simpl in Hrun.
  - by simplify_eq.
  - destruct (step l w) as [w1|] eqn:Hstep; [|done]. simpl in Hrun.
    destruct (step_frame _ _ _ Hstep) as (H1 & H2 & H3 & H4).
    destruct (IH _ Hrun) as (H1' & H2' & H3' & H4').
    split_and!; try congruence.
    + intros Hdone. rewrite <- (H3 Hdone). apply H3'. by rewrite (H3 Hdone).
    + auto.
Qed.

(** ** Joining, progress and termination *)

(** A schedule in which only goroutines move: nothing is submitted and
    the caller's context is left alone. *)
Definition acts (sched : list label) : Prop :=
  Forall (fun l => exists i, l = Act i) sched.

Definition all_exited (w : world) : Prop :=
  Forall (fun c => at_ c = Exited) (calls w).

Lemma count_none {A : Type} (p : A -> bool) (l : list A) :
  Forall (fun x => p x = false) l -> count p l = 0.
Proof. induction 1 as [|x l Hx _ IH]; simpl; [done|]. by rewrite Hx, IH. Qed.

Lemma forallb_Forall {A : Type} (p : A -> bool) (l : list A) :
  forallb p l = true <-> Forall (fun x => p x = true) l.
Proof.
  induction l as [|x l IH]; simpl.
  - split; [constructor|done].
  - destruct (p x) eqn:Hx; simpl; split.
    + intros H. constructor; [done|]. by apply IH.
    + intros H. inversion_clear H as [|? ? H1 H2]. by apply IH.
    + done.
    + intros H. inversion_clear H as [|? ? H1 H2]. congruence.
Qed.

Lemma joined_quiesced w :
  inv w -> joined w = true -> Forall (fun c => quiesced c = true) (calls w).
Proof.
  intros Hinv Hj. unfold joined in Hj.
  apply andb_prop in Hj as [Hwg Hret]. apply bool_decide_eq_true in Hwg.
  rewrite (inv_wg _ Hinv) in Hwg. apply count_zero in Hwg.
  apply forallb_Forall in Hret. rewrite Forall_forall in Hret.
  apply Forall_forall. intros c Hc.
  pose proof (Hret c Hc) as H1.
  pose proof (proj1 (Forall_forall _ _) Hwg c Hc) as H2. simpl in H2.
  unfold returned, in_wg, quiesced in *. by destruct (at_ c).
Qed.

Lemma all_exited_joined w : inv w -> all_exited w -> joined w = true.
Proof.
  intros Hinv Hall. unfold joined. apply andb_true_intro. split.
  - apply bool_decide_eq_true. rewrite (inv_wg _ Hinv). apply count_none.
    eapply Forall_impl; [|exact Hall]. intros c Hc. simpl in Hc.
    unfold in_wg. by rewrite Hc.
  - apply forallb_Forall. eapply Forall_impl; [|exact Hall].
    intros c Hc. simpl in Hc. unfold returned. by rewrite Hc.
Qed.

(** Only [r.maybeSemInc()] can hold a call back. *)
Lemma act_enabled w i c :
  inv w -> calls w !! i = Some c -> at_ c <> Exited ->
  (at_ c = AtSemInc -> is_Some (maybeSemInc (rn w))) ->
  is_Some (step (Act i) w).
Proof.
  intros Hinv Hi Hne Hinc.
  assert (c ∈ calls w) as Hin by (apply list_elem_of_lookup; eauto).
  assert (is_Some (action c (rn w))) as [[r' c'] Hact].
  { unfold action. destruct (at_ c) eqn:Hat.
    - destruct (Hinc eq_refl) as [r' ->]. csimpl. by eexists.
    - by eexists.
    - case_bool_decide; by eexists.
    - by eexists.
    - case_bool_decide; by eexists.
    - destruct (ShouldCancel (rn w)); by eexists.
    - assert (0 < wg (rn w)) as Hwg.
      { rewrite (inv_wg _ Hinv). eapply count_pos; [done|].
        unfold in_wg. by rewrite Hat. }
      unfold wg_Done. destruct (wg (rn w)); [lia|]. csimpl. by eexists.
    - unfold maybeSemDec. destruct (hasLimit (rn w)) eqn:Hlim;
        [|csimpl; by eexists].
      assert (0 < sem_len (rn w)) as Hlen.
      { rewrite (inv_sem _ Hinv), Hlim. eapply count_pos; [done|].
        unfold holds_slot. by rewrite Hat. }
      destruct (sem_len (rn w)); [lia|]. csimpl. by eexists.
    - done. }
  simpl. rewrite Hi. simpl. rewrite Hact. by eexists.
Qed.

Lemma rank_action c r r' c' :
  action c r = Some (r', c') -> rank c' < rank c.
Proof.
  unfold action, rank. intros Hact.
  destruct (at_ c) eqn:Hat; simpl in Hact;
    repeat match type of Hact with
    | context [if ?b then _ else _] => destruct b eqn:?
    end; simplify_option_eq; simpl; lia.
Qed.

Lemma act_step i w w' :
  step (Act i) w = Some w' ->
  fuel w' < fuel w /\ f <$> calls w' = f <$> calls w /\
  parent (rn w') = parent (rn w).
Proof.
  simpl. intros Hstep.
  destruct (calls w !! i) as [c|] eqn:Hi; [|done]. simpl in Hstep.
  destruct (action c (rn w)) as [[r' c']|] eqn:Hact; simplify_eq/=.
  destruct (action_frame _ _ _ _ Hact) as (_ & Hp & _ & Hf & _).
  split_and!; [|by rewrite list_fmap_insert, Hf, list_insert_id
                      by by rewrite list_lookup_fmap, Hi|done].
  unfold fuel. pose proof (sum_list_insert rank _ _ _ c' Hi).
  pose proof (rank_action _ _ _ _ Hact). simpl. lia.
Qed.

Lemma acts_run sched w w' :
  acts sched -> run sched w = Some w' ->
  length sched + fuel w' <= fuel w /\ f <$> calls w' = f <$> calls w /\
  parent (rn w') = parent (rn w).
Proof.
  intros Hacts. revert w. induction Hacts as [|l sched [i ->] _ IH];
    intros w Hrun.
  - simpl in Hrun. simplify_eq. split_and!; [simpl; lia|done|done].
  - rewrite run_cons in Hrun.
    destruct (step (Act i) w) as [w1|] eqn:Hstep; [|done]. simpl in Hrun.
    destruct (act_step _ _ _ Hstep) as (? & ? & ?).
    destruct (IH _ Hrun) as (? & ? & ?).
    split_and!; [simpl; lia|congruence|congruence].
Qed.

(** While some call has not exited, some call can move. *)
Lemma progress w :
  inv w -> ~ all_exited w -> exists i w', step (Act i) w = Some w'.
Proof.
  intros Hinv Hnot.
  destruct (decide (Exists (fun c => at_ c <> AtSemInc /\ at_ c <> Exited)
                      (calls w))) as [Hex|Hnex].
  - apply Exists_exists in Hex as (c & Hc & H1 & H2).
    apply list_elem_of_In, list_elem_of_lookup in Hc as [i Hi].
    destruct (act_enabled w i c Hinv Hi H2) as [w' Hw']; [done|eauto].
  - apply not_Exists_Forall in Hnex; [|solve_decision].
    apply not_Forall_Exists in Hnot; [|solve_decision].
    apply Exists_exists in Hnot as (c & Hc & Hne). simpl in Hne.
    assert (at_ c = AtSemInc) as Hat.
    { pose proof (proj1 (Forall_forall _ _) Hnex c Hc) as H. simpl in H.
      destruct (decide (at_ c = AtSemInc)); [done|]. exfalso. by apply H. }
    apply list_elem_of_In, list_elem_of_lookup in Hc as [i Hi].
    destruct (act_enabled w i c Hinv Hi Hne) as [w' Hw']; [|eauto].
    intros _. unfold maybeSemInc.
    destruct (hasLimit (rn w)) eqn:Hlim; [|by eexists].
    assert (sem_len (rn w) = 0) as Hlen.
    { rewrite (inv_sem _ Hinv), Hlim. apply count_none.
      eapply Forall_impl; [|exact Hnex]. intros c0 H0. simpl in H0.
      unfold holds_slot. destruct (at_ c0) eqn:E; try done;
        exfalso; apply H0; by rewrite ?E. }
    unfold hasLimit in Hlim. apply bool_decide_eq_true in Hlim.
    rewrite bool_decide_true by lia. by eexists.
Qed.

(** From any state the goroutines can run to the end. *)
Lemma completes w :
  inv w ->
  exists sched w', acts sched /\ run sched w = Some w' /\ all_exited w'.
Proof.
  remember (fuel w) as n eqn:Hn. revert w Hn.
  induction (lt_wf n) as [n _ IH]. intros w -> Hinv.
  destruct (decide (all_exited w)) as [Hall|Hnot].
  { exists [], w. split_and!; [constructor|done|done]. }
  destruct (progress w Hinv Hnot) as (i & w1 & Hstep).
  destruct (act_step _ _ _ Hstep) as (Hlt & _ & _).
  destruct (IH _ Hlt w1 eq_refl (inv_step _ _ _ Hinv Hstep))
    as (sched & w' & Hacts & Hrun & Hall).
  exists (Act i :: sched), w'.
  split_and!; [|by rewrite run_cons, Hstep|done].
  constructor; eauto.
Qed.

(** ** Errors returned by [Wait] are never nil *)

Lemma causeForTaskSkip_not_nil (c : context) : causeForTaskSkip c <> None.
Proof.
  unfold causeForTaskSkip, standard, errors_Is.
  destruct (Cause c) as [e|]; simpl; [|done]. by case_match.
Qed.

(** C10: every element of the sequence returned by [Wait] is a non-nil
    error.  Only a non-nil [result] is appended (the collector holds
    exactly the non-nil results of the calls that are past the append),
    and the error synthesized for a skipped task is never nil. *)
Theorem C10_wait_never_returns_nil pctx opts r w es :
  New pctx opts = Some r -> reachable r w -> Wait (rn w) = Some es ->
  Forall (fun e => e <> None) es /\
  es ≡ₚ Some <$> omap recorded (calls w) /\
  (forall c : context, causeForTaskSkip c <> None).
Proof.
  intros Hnew Hreach Hwait.
  pose proof (inv_reachable _ _ _ _ Hnew Hreach) as Hinv.
  unfold Wait, Clone in Hwait. case_bool_decide; simplify_eq.
  split_and!; [|apply (inv_errs _ Hinv)|apply causeForTaskSkip_not_nil].
  rewrite (inv_errs _ Hinv). apply Forall_fmap, Forall_true. done.
Qed.

(** The world a schedule leads to, for concrete runs. *)
Definition after (sched : list label) (r : Runner) : world :=
  default (start r) (run sched (start r)).

(** A call that runs to its end takes seven actions when its result is
    nil, eight when it is appended. *)
Definition through (i n : nat) : list label := replicate n (Act i).

Definition limit2 : Runner := mkRunner None None false 0 [] 2 0 [] [].

Definition one_failure : list label :=
  Go (Some (errorString 1)) :: through 0 8.

Lemma C10_witness :
  New None [WithLimit 2] = Some limit2 /\
  reachable limit2 (after one_failure limit2) /\
  Wait (rn (after one_failure limit2)) = Some [Some (errorString 1)] /\
  Forall (fun e => e <> None) [Some (errorString 1)].
Proof.
  assert (H1 : New None [WithLimit 2] = Some limit2) by reflexivity.
  assert (H2 : reachable limit2 (after one_failure limit2))
    by (exists one_failure; reflexivity).
  assert (H3 : Wait (rn (after one_failure limit2))
               = Some [Some (errorString 1)]) by reflexivity.
  split_and!; [exact H1|exact H2|exact H3|].
  exact (proj1 (C10_wait_never_returns_nil _ _ _ _ _ H1 H2 H3)).
Defined.

(** ** The concurrency limit *)

Lemma reachable_frame r w :
  reachable r w ->
  sem_cap (rn w) = sem_cap r /\ ShouldCancel (rn w) = ShouldCancel r.
Proof. intros [sched Hrun]. by destruct (run_frame _ _ _ Hrun) as (? & ? & _). Qed.

(** A schedule that admits the second call of [Go] while the first one
    is still waiting in [maybeSemInc]. *)
Definition overtaking : list label := [Go None; Go None; Act 1].

(** C8: with a limit L > 0, at every point of every execution at most L
    task bodies are running, and at most L calls are between taking a slot
    and giving it back.  Admission does not follow submission order: the
    schedule [overtaking] admits the second submitted call while the first
    still waits. *)
Theorem C8_limit_bounds_running pctx opts r w :
  New pctx opts = Some r -> (0 < Limit (configure opts))%N ->
  reachable r w ->
  count running (calls w) <= N.to_nat (Limit (configure opts)) /\
  count holds_slot (calls w) <= N.to_nat (Limit (configure opts)) /\
  exists w' c0 c1,
    run overtaking (start r) = Some w' /\
    calls w' !! 0 = Some c0 /\ calls w' !! 1 = Some c1 /\
    at_ c0 = AtSemInc /\ at_ c1 = AtWgAdd /\ holds_slot c1 = true.
Proof.
  intros Hnew Hpos Hreach.
  pose proof (inv_reachable _ _ _ _ Hnew Hreach) as Hinv.
  destruct (New_fields _ _ _ Hnew) as (_ & _ & Hcap & _).
  destruct (reachable_frame _ _ Hreach) as [Hcapw _].
  assert (hasLimit (rn w) = true) as Hlim.
  { unfold hasLimit. apply bool_decide_eq_true. lia. }
  assert (count holds_slot (calls w) <= N.to_nat (Limit (configure opts))).
  { pose proof (inv_sem _ Hinv) as Hsem. pose proof (inv_cap _ Hinv).
    rewrite Hlim in Hsem. lia. }
  split_and!; [|done|].
  - etrans; [|done]. apply count_le. intros c. unfold running, holds_slot.
    intros Hc. apply bool_decide_eq_true in Hc. by rewrite Hc.
  - unfold New in Hnew. simpl in Hnew.
    destruct (maxInt <? Limit (configure opts))%N; [done|]. simplify_eq.
    unfold overtaking. simpl. unfold action, maybeSemInc, hasLimit. simpl.
    rewrite !bool_decide_true by lia. csimpl.
    eexists _, _, _. by split_and!.
Qed.

Definition three_calls : list label :=
  [Go None; Go None; Go None; Act 2; Act 0; Act 2; Act 0; Act 2; Act 0].

Lemma C8_witness :
  New None [WithLimit 2] = Some limit2 /\
  (0 < Limit (configure [WithLimit 2]))%N /\
  reachable limit2 (after three_calls limit2) /\
  count running (calls (after three_calls limit2))
    <= N.to_nat (Limit (configure [WithLimit 2])).
Proof.
  assert (H1 : New None [WithLimit 2] = Some limit2) by reflexivity.
  assert (H2 : (0 < Limit (configure [WithLimit 2]))%N) by reflexivity.
  assert (H3 : reachable limit2 (after three_calls limit2))
    by (exists three_calls; reflexivity).
  split_and!; [exact H1|exact H2|exact H3|].
  exact (proj1 (C8_limit_bounds_running _ _ _ _ H1 H2 H3)).
Defined.

(** ** No limit *)

Lemma configure_snoc opts opt :
  configure (opts ++ [opt]) = apply opt (configure opts).
Proof. unfold configure. by rewrite foldl_app. Qed.

(** Without a [WithLimit] option, or with limit 0 in all of them, the
    limit stays 0. *)
Lemma configure_no_limit opts :
  (forall n, WithLimit n ∈ opts -> n = 0%N) -> Limit (configure opts) = 0%N.
Proof.
  induction opts as [|opt opts IH] using rev_ind; [done|].
  intros Hall. rewrite configure_snoc. destruct opt as [|n]; simpl.
  - apply IH. intros n Hn. apply Hall. apply elem_of_app. by left.
  - apply Hall. apply elem_of_app. right. by apply list_elem_of_singleton.
Qed.

(** C9: a limit of 0, or no [WithLimit] option at all, is no limit: the
    semaphore is the nil channel, [maybeSemInc] does nothing and never
    blocks, so a call waiting for admission can always take its next
    action, and so can every other call that has not exited: no
    submission waits for a slot. *)
Theorem C9_limit_zero_is_unlimited pctx opts r w i c :
  New pctx opts = Some r ->
  (forall n, WithLimit n ∈ opts -> n = 0%N) ->
  reachable r w -> calls w !! i = Some c ->
  hasLimit (rn w) = false /\
  maybeSemInc (rn w) = Some (rn w) /\
  (at_ c = AtSemInc ->
   step (Act i) w = Some (mkWorld (rn w) (<[i:=moved c AtWgAdd]> (calls w)))) /\
  (at_ c <> Exited -> is_Some (step (Act i) w)).
Proof.
  intros Hnew Hopts Hreach Hi.
  pose proof (inv_reachable _ _ _ _ Hnew Hreach) as Hinv.
  destruct (New_fields _ _ _ Hnew) as (_ & _ & Hcap & _).
  destruct (reachable_frame _ _ Hreach) as [Hcapw _].
  rewrite (configure_no_limit _ Hopts) in Hcap.
  assert (hasLimit (rn w) = false) as Hlim.
  { unfold hasLimit. apply bool_decide_eq_false. rewrite Hcapw, Hcap. simpl. lia. }
  assert (maybeSemInc (rn w) = Some (rn w)) as Hinc.
  { unfold maybeSemInc. by rewrite Hlim. }
  split_and!; [done|done| |].
  - intros Hat. simpl. rewrite Hi. simpl. unfold action. rewrite Hat, Hinc. done.
  - intros Hne. eapply act_enabled; [done|done|done|]. intros _.
    rewrite Hinc. by eexists.
Qed.

Definition unlimited : Runner := mkRunner None None false 0 [] 0 0 [] [].

Definition many_calls : list label :=
  [Go None; Go None; Go None; Go None; Act 3; Act 1; Act 1; Act 1].

Lemma C9_witness :
  New None [WithLimit 0] = Some unlimited /\
  (forall n, WithLimit n ∈ [WithLimit 0%N] -> n = 0%N) /\
  reachable unlimited (after many_calls unlimited) /\
  calls (after many_calls unlimited) !! 2
    = Some (mkCall None None AtSemInc 0) /\
  hasLimit (rn (after many_calls unlimited)) = false.
Proof.
  assert (H1 : New None [WithLimit 0] = Some unlimited) by reflexivity.
  assert (H2 : forall n, WithLimit n ∈ [WithLimit 0%N] -> n = 0%N).
  { intros n Hn. apply list_elem_of_singleton in Hn. congruence. }
  assert (H3 : reachable unlimited (after many_calls unlimited))
    by (exists many_calls; reflexivity).
  assert (H4 : calls (after many_calls unlimited) !! 2
               = Some (mkCall None None AtSemInc 0)) by reflexivity.
  split_and!; [exact H1|exact H2|exact H3|exact H4|].
  exact (proj1 (C9_limit_zero_is_unlimited _ _ _ _ _ _ H1 H2 H3 H4)).
Defined.

(** ** Skipped tasks *)

Lemma standard_Canceled : standard (Some Canceled) = true.
Proof. done. Qed.

Lemma skipped_result pctx opts r w c :
  New pctx opts = Some r -> reachable r w -> c ∈ calls w ->
  skipped c = true ->
  Err (ctx (rn w)) <> None /\ result c = causeForTaskSkip (ctx (rn w)).
Proof.
  intros Hnew Hreach Hc Hskip.
  pose proof (inv_reachable _ _ _ _ Hnew Hreach) as Hinv.
  pose proof (inv_calls _ Hinv) as Hcalls.
  rewrite Forall_forall in Hcalls. apply list_elem_of_In in Hc.
  specialize (Hcalls c Hc). unfold skipped in Hskip.
  apply andb_prop in Hskip as [Hpast Hruns].
  apply bool_decide_eq_true in Hruns.
  unfold call_ok in Hcalls. rewrite Hpast in Hcalls.
  destruct Hcalls as [[[Hr _]|(_ & Hdone & Hres)] _]; [lia|done].
Qed.

Lemma recorded_in_errs w c e :
  inv w -> c ∈ calls w -> recorded c = Some e -> Some e ∈ errs (rn w).
Proof.
  intros Hinv Hc Hrec. rewrite (inv_errs _ Hinv).
  apply list_elem_of_fmap. exists e. split; [done|].
  apply list_elem_of_omap. eauto.
Qed.






Definition one_skip : list label := Go None :: through 0 7.





(** ** The one-time trigger *)

(** [failCanceler.Cancel] after the first call changes nothing but the
    log of attempts. *)
Lemma Cancel_noop err r :
  once r = true ->
  derived (Cancel err r) = derived r /\
  ctx (Cancel err r) = ctx r /\
  cancel_calls (Cancel err r) = cancel_calls r /\
  errs (Cancel err r) = errs r.
Proof. unfold Cancel, ctx. by intros ->. Qed.

Lemma action_once c r r' c' :
  action c r = Some (r', c') -> once r = true ->
  once r' = true /\ cancel_calls r' = cancel_calls r.
Proof.
  unfold action, maybeSemInc, maybeSemDec, wg_Done, hasLimit, Cancel.
  intros Hact Ho.
  destruct (at_ c) eqn:Hat; simpl in Hact.
  all: repeat match type of Hact with
       | context [if ?b then _ else _] => destruct b eqn:?
       | context [match ?x with _ => _ end] => destruct x eqn:?
       end; simplify_option_eq; try done.
Qed.

Lemma run_once sched w w' :
  run sched w = Some w' -> once (rn w) = true ->
  once (rn w') = true /\ cancel_calls (rn w') = cancel_calls (rn w).
Proof.
  revert w. induction sched as [|l sched IH]; intros w Hrun Ho.
  - simpl in Hrun. by simplify_eq.
  - rewrite run_cons in Hrun.
    destruct (step l w) as [w1|] eqn:Hstep; [|done]. simpl in Hrun.
    assert (once (rn w1) = true /\ cancel_calls (rn w1) = cancel_calls (rn w))
      as [Ho1 Hc1].
    { destruct l as [f0|i|how]; simpl in Hstep.
      - by simplify_eq.
      - destruct (calls w !! i) as [c|]; [|done]. simpl in Hstep.
        destruct (action c (rn w)) as [[r' c']|] eqn:Hact; simplify_eq/=.
        by eapply action_once.
      - simplify_eq/=. unfold end_parent. by destruct (parent (rn w)). }
    destruct (IH _ Hrun Ho1) as [? ?]. split; [done|congruence].
Qed.

(** C6, as the code has it: with cancel-on-failure on, the cancel
    function of the derived context is called at most once in an
    execution, with the error of the first completion that reached
    [failCanceler.Cancel]; every later call of [failCanceler.Cancel]
    leaves the context and its cause alone, and the trigger's argument
    stays what it was in every continuation.  While the caller's context
    is live, the cause of [r.ctx] is that first error, which some task
    body returned.  Every error that reached the trigger, first or not,
    is in the collector, which holds exactly the non-nil results of the
    completed calls.  Once [r.ctx] is done, nothing changes it or its
    cause any more, and the non-nil result of every call whose goroutine
    is past [r.wg.Done()] is in the collector. *)
Theorem C6_cancel_fires_once pctx opts r w :
  New pctx opts = Some r -> CancelOnFailure (configure opts) = true ->
  reachable r w ->
  length (cancel_calls (rn w)) <= 1 /\
  cancel_calls (rn w) = take 1 (attempts (rn w)) /\
  (forall err, once (rn w) = true ->
     ctx (Cancel err (rn w)) = ctx (rn w) /\
     cancel_calls (Cancel err (rn w)) = cancel_calls (rn w)) /\
  (forall sched w', cancel_calls (rn w) <> [] -> run sched w = Some w' ->
     cancel_calls (rn w') = cancel_calls (rn w)) /\
  (parent (rn w) = None ->
   ctx (rn w) = match cancel_calls (rn w) with
                | [] => None
                | e :: _ => Some (Canceled, default Canceled e)
                end /\
   forall e, e ∈ cancel_calls (rn w) ->
     exists c, c ∈ calls w /\ runs c = 1 /\ f c = e /\ is_Some e) /\
  (forall e, e ∈ attempts (rn w) -> e ∈ errs (rn w)) /\
  errs (rn w) ≡ₚ Some <$> omap recorded (calls w) /\
  (forall sched w', Err (ctx (rn w)) <> None -> run sched w = Some w' ->
     ctx (rn w') = ctx (rn w)) /\
  (forall c, c ∈ calls w -> quiesced c = true -> result c <> None ->
     result c ∈ errs (rn w)).
Proof.
  intros Hnew Hcof Hreach.
  pose proof (inv_reachable _ _ _ _ Hnew Hreach) as Hinv.
  destruct (New_fields _ _ _ Hnew) as (_ & Hder & _ & _).
  rewrite Hcof in Hder.
  destruct (reachable_frame _ _ Hreach) as [_ Hsc].
  assert (ShouldCancel (rn w) = true) as Hsc'.
  { rewrite Hsc. unfold ShouldCancel. rewrite Hder.
    apply bool_decide_eq_true. eauto. }
  pose proof Hsc' as Hd. unfold ShouldCancel in Hd.
  apply bool_decide_eq_true in Hd as [d Hd].
  split_and!.
  - rewrite (inv_cancel_calls _ Hinv), length_take. lia.
  - apply (inv_cancel_calls _ Hinv).
  - intros err Ho. by destruct (Cancel_noop err _ Ho) as (_ & ? & ? & _).
  - intros sched w' Hne Hrun. eapply run_once; [done|].
    apply (inv_once _ Hinv). intros Hnil.
    rewrite (inv_cancel_calls _ Hinv), Hnil in Hne. done.
  - intros Hp. split.
    + unfold ctx. rewrite Hd.
      by destruct (inv_derived _ Hinv _ Hd) as [_ ->].
    + by apply (inv_trigger _ Hinv).
  - intros e He. pose proof (inv_attempts _ Hinv) as Hatt.
    rewrite Hsc' in Hatt. rewrite Hatt in He.
    apply list_elem_of_fmap in He as (e' & -> & He').
    apply list_elem_of_omap in He' as (c & Hc & Htried).
    eapply recorded_in_errs; [done|done|].
    unfold tried in Htried. unfold recorded. by destruct (at_ c).
  - apply (inv_errs _ Hinv).
  - intros sched w' Hdone Hrun.
    destruct (run_frame _ _ _ Hrun) as (_ & _ & Hctx & _). by apply Hctx.
  - intros c Hc Hq Hne. destruct (result c) as [e|] eqn:He; [|done].
    eapply recorded_in_errs; [done|done|].
    unfold quiesced in Hq. unfold recorded. rewrite He. by destruct (at_ c).
Qed.

Definition cancelling : Runner :=
  mkRunner None (Some None) false 0 [] 0 0 [] [].

(** Two tasks fail side by side; the second to finish appends first. *)
Definition two_failures : list label :=
  [Go (Some (errorString 1)); Go (Some (errorString 2));
   Act 0; Act 0; Act 0; Act 0; Act 1; Act 1; Act 1; Act 1;
   Act 1; Act 0; Act 0; Act 1].

Lemma C6_witness :
  New None [WithCancelOnFailure] = Some cancelling /\
  CancelOnFailure (configure [WithCancelOnFailure]) = true /\
  reachable cancelling (after two_failures cancelling) /\
  attempts (rn (after two_failures cancelling))
    = [Some (errorString 1); Some (errorString 2)] /\
  errs (rn (after two_failures cancelling))
    = [Some (errorString 2); Some (errorString 1)] /\
  ctx (rn (after two_failures cancelling))
    = Some (Canceled, errorString 1) /\
  cancel_calls (rn (after two_failures cancelling))
    = take 1 (attempts (rn (after two_failures cancelling))).
Proof.
  assert (H1 : New None [WithCancelOnFailure] = Some cancelling)
    by reflexivity.
  assert (H2 : CancelOnFailure (configure [WithCancelOnFailure]) = true)
    by reflexivity.
  assert (H3 : reachable cancelling (after two_failures cancelling))
    by (exists two_failures; reflexivity).
  split_and!; [exact H1|exact H2|exact H3|reflexivity|reflexivity|
               reflexivity|].
  exact (proj1 (proj2 (C6_cancel_fires_once _ _ _ _ H1 H2 H3))).
Defined.

(** The caller cancels its context while the only task is running; the
    task then fails. *)
Definition overtaken_by_parent : list label :=
  (Go (Some (errorString 1)) :: through 0 3) ++
  [End (ByCancel None)] ++ through 0 5.

(** C6 as stated: whenever the trigger has fired, its argument is the
    failure of a task whose body ran, and that failure is the cause of
    the derived context. *)
Definition C6_as_stated (pctx : context) (opts : list Option)
    (sched : list label) : Prop :=
  forall r w e,
    New pctx opts = Some r -> CancelOnFailure (configure opts) = true ->
    run sched (start r) = Some w -> cancel_calls (rn w) = [e] ->
    Cause (ctx (rn w)) = e /\
    exists c, c ∈ calls w /\ runs c = 1 /\ f c = e.

(** When the caller cancels first, the cause of [r.ctx] is the caller's
    and the failure that fires the trigger afterwards does not replace
    it; and when the caller's context is done before the first task, the
    trigger fires with the error synthesized for a skipped task, which
    no task body returned. *)
Lemma C6_counterexample :
  ~ C6_as_stated None [WithCancelOnFailure] overtaken_by_parent /\
  ~ C6_as_stated (Some (Canceled, Canceled)) [WithCancelOnFailure] one_skip.
Proof.
  split; intros H.
  - destruct (H cancelling (after overtaken_by_parent cancelling)
                (Some (errorString 1))) as [Hcause _];
      [reflexivity|reflexivity|vm_compute; reflexivity|
       vm_compute; reflexivity|].
    vm_compute in Hcause. discriminate Hcause.
  - destruct (H (mkRunner (Some (Canceled, Canceled))
                   (Some (Some (Canceled, Canceled))) false 0 [] 0 0 [] [])
                (after one_skip
                   (mkRunner (Some (Canceled, Canceled))
                      (Some (Some (Canceled, Canceled))) false 0 [] 0 0 [] []))
                (Some Canceled)) as [_ (c & Hc & Hr & _)];
      [reflexivity|reflexivity|vm_compute; reflexivity|
       vm_compute; reflexivity|].
    vm_compute in Hc. apply list_elem_of_singleton in Hc. subst c.
    discriminate Hr.
Qed.

(** ** A context that is done before any task is submitted *)


(** No body has been called and none is running. *)
Definition idle (c : call) : Prop := runs c = 0 /\ at_ c <> AtCall.

Lemma action_idle c r r' c' :
  action c r = Some (r', c') -> Err (ctx r) <> None -> idle c -> idle c'.
Proof.
  unfold action, idle. intros Hact Hdone [Hruns Hat].
  destruct (at_ c) eqn:E; simpl in Hact; try done.
  all: repeat match type of Hact with
       | context [if ?b then _ else _] => destruct b eqn:?
       end; simplify_option_eq; try done.
  exfalso.
  match goal with
  | H : bool_decide _ = false |- _ => apply bool_decide_eq_false in H; by apply H
  end.
Qed.







(** ** Batches under a live context *)

(** After the join, under a context that is still live, every body has
    been called once and the collector holds what the bodies returned. *)
Lemma joined_results w :
  inv w -> joined w = true -> Err (ctx (rn w)) = None ->
  Forall (fun c => runs c = 1 /\ result c = f c) (calls w) /\
  errs (rn w) ≡ₚ failures (f <$> calls w).
Proof.
  intros Hinv Hj Hlive.
  pose proof (joined_quiesced _ Hinv Hj) as Hq.
  assert (Forall (fun c => runs c = 1 /\ result c = f c) (calls w)) as Hran.
  { pose proof (inv_calls _ Hinv) as Hcalls.
    rewrite Forall_forall in Hcalls, Hq. apply Forall_forall. intros c Hc.
    specialize (Hcalls c Hc). specialize (Hq c Hc).
    unfold call_ok, past_check in Hcalls. unfold quiesced in Hq.
    destruct (at_ c); try done;
      by destruct Hcalls as [[?|(_ & ? & _)] _]. }
  split; [done|].
  rewrite (inv_errs _ Hinv), failures_fmap.
  assert (omap recorded (calls w) = omap f (calls w)) as ->; [|done].
  apply omap_same. rewrite Forall_forall in Hran, Hq.
  apply Forall_forall. intros c Hc.
  destruct (Hran c Hc) as [_ <-]. specialize (Hq c Hc).
  unfold quiesced in Hq. unfold recorded. by destruct (at_ c).
Qed.

Lemma completes_joined w :
  inv w ->
  exists sched w',
    acts sched /\ run sched w = Some w' /\ joined w' = true /\
    f <$> calls w' = f <$> calls w /\ parent (rn w') = parent (rn w).
Proof.
  intros Hinv. destruct (completes w Hinv) as (sched & w' & Ha & Hrun & Hall).
  destruct (acts_run _ _ _ Ha Hrun) as (_ & Hf & Hp).
  exists sched, w'. split_and!; try done.
  apply all_exited_joined; [|done]. by eapply inv_run.
Qed.

(** C1, as the code has it: under a caller's context that has not been
    cancelled, without cancel-on-failure and for any limit, the
    goroutines of a batch can always run to the join, and a [Wait] that
    returns after all N calls of [Go] returns exactly the K non-nil
    errors the task bodies returned, each body having been called
    once. *)
Theorem C1_failures_are_collected pctx opts r w :
  New pctx opts = Some r -> CancelOnFailure (configure opts) = false ->
  reachable r w -> parent (rn w) = None ->
  (exists sched w',
     acts sched /\ run sched w = Some w' /\ joined w' = true /\
     f <$> calls w' = f <$> calls w /\ parent (rn w') = None) /\
  (joined w = true ->
   exists es,
     Wait (rn w) = Some es /\
     es ≡ₚ failures (f <$> calls w) /\
     length es = count (fun e => bool_decide (e <> None)) (f <$> calls w) /\
     Forall (fun c => runs c = 1 /\ result c = f c) (calls w)).
Proof.
  intros Hnew Hcof Hreach Hp.
  pose proof (inv_reachable _ _ _ _ Hnew Hreach) as Hinv.
  split.
  { destruct (completes_joined w Hinv) as (sched & w' & ? & ? & ? & ? & Hp').
    exists sched, w'. split_and!; try done. by rewrite Hp'. }
  intros Hj.
  assert (Err (ctx (rn w)) = None) as Hlive.
  { destruct (New_fields _ _ _ Hnew) as (_ & Hder & _ & _).
    rewrite Hcof in Hder. destruct (reachable_frame _ _ Hreach) as [_ Hsc].
    unfold ShouldCancel in Hsc. rewrite Hder in Hsc.
    rewrite (bool_decide_false (is_Some None)) in Hsc by by intros [].
    apply bool_decide_eq_false in Hsc.
    unfold ctx. destruct (derived (rn w)); [|by rewrite Hp].
    exfalso. apply Hsc. eauto. }
  destruct (joined_results _ Hinv Hj Hlive) as [Hran Herrs].
  exists (errs (rn w)). split_and!; [|done| |done].
  - unfold joined in Hj. apply andb_prop in Hj as [Hwg _].
    unfold Wait. by rewrite Hwg.
  - by rewrite Herrs, failures_length.
Qed.

(** A batch of one failure among three tasks, under a limit of two. *)
Definition mixed_batch : list label :=
  [Go None; Go (Some (errorString 1)); Go None] ++
  through 1 8 ++ through 0 7 ++ through 2 7.

Lemma C1_witness :
  New None [WithLimit 2] = Some limit2 /\
  CancelOnFailure (configure [WithLimit 2]) = false /\
  reachable limit2 (after mixed_batch limit2) /\
  parent (rn (after mixed_batch limit2)) = None /\
  joined (after mixed_batch limit2) = true /\
  Wait (rn (after mixed_batch limit2)) = Some [Some (errorString 1)] /\
  exists es,
    Wait (rn (after mixed_batch limit2)) = Some es /\
    es ≡ₚ failures (f <$> calls (after mixed_batch limit2)) /\
    length es = count (fun e => bool_decide (e <> None))
                  (f <$> calls (after mixed_batch limit2)) /\
    Forall (fun c => runs c = 1 /\ result c = f c)
      (calls (after mixed_batch limit2)).
Proof.
  assert (H1 : New None [WithLimit 2] = Some limit2) by reflexivity.
  assert (H2 : CancelOnFailure (configure [WithLimit 2]) = false)
    by reflexivity.
  assert (H3 : reachable limit2 (after mixed_batch limit2))
    by (exists mixed_batch; vm_compute; reflexivity).
  assert (H4 : parent (rn (after mixed_batch limit2)) = None)
    by (vm_compute; reflexivity).
  assert (H5 : joined (after mixed_batch limit2) = true)
    by (vm_compute; reflexivity).
  assert (H6 : Wait (rn (after mixed_batch limit2))
               = Some [Some (errorString 1)]) by (vm_compute; reflexivity).
  split_and!; [exact H1|exact H2|exact H3|exact H4|exact H5|exact H6|].
  exact (proj2 (C1_failures_are_collected _ _ _ _ H1 H2 H3 H4) H5).
Defined.

(** C1 as stated, for any caller's context. *)
Definition C1_as_stated (pctx : context) (opts : list Option)
    (sched : list label) : Prop :=
  forall r w es,
    New pctx opts = Some r -> CancelOnFailure (configure opts) = false ->
    run sched (start r) = Some w -> joined w = true ->
    Wait (rn w) = Some es ->
    length es = count (fun e => bool_decide (e <> None)) (f <$> calls w) /\
    Forall (fun c => f c = None -> runs c = 1) (calls w).

(** The caller's context is cancelled before the batch: the one task,
    which would return nil, is skipped, and [Wait] returns one error. *)
Lemma C1_counterexample :
  ~ C1_as_stated (Some (Canceled, Canceled)) [] one_skip.
Proof.
  intros H.
  destruct (H _ (after one_skip
                   (mkRunner (Some (Canceled, Canceled)) None
                      false 0 [] 0 0 [] []))
              [Some Canceled] eq_refl eq_refl eq_refl eq_refl eq_refl)
    as [Hlen _].
  discriminate Hlen.
Qed.

(** While the caller's context is live, only the failure of a task whose
    body ran can have ended [r.ctx]. *)
Lemma done_by_failure w :
  inv w -> parent (rn w) = None -> Err (ctx (rn w)) <> None ->
  exists c e, c ∈ calls w /\ runs c = 1 /\ f c = Some e /\
    cancel_calls (rn w) = [Some e] /\ ctx (rn w) = Some (Canceled, e).
Proof.
  intros Hinv Hp Hdone. unfold ctx in *.
  destruct (derived (rn w)) as [d|] eqn:Hd; [|by rewrite Hp in Hdone].
  destruct (inv_derived _ Hinv _ Hd) as [_ Hd2]. specialize (Hd2 Hp).
  pose proof (inv_cancel_calls _ Hinv) as Hcc.
  destruct (cancel_calls (rn w)) as [|e0 l] eqn:Hcalls.
  { by rewrite Hd2 in Hdone. }
  destruct (inv_trigger _ Hinv Hp e0) as (c & Hc & Hr & Hf & [e He]).
  { rewrite Hcalls. by left. }
  subst e0. rewrite He in *. exists c, e.
  split_and!; [done|done|done| |by rewrite Hd2].
  destruct (attempts (rn w)) as [|a [|b l']]; simpl in Hcc; congruence.
Qed.

(** C2, as the code has it: when the caller's context has not been
    cancelled by the time [Wait] returns, a batch whose bodies all return
    nil ends with no error and with every one of the N bodies called
    once, with cancel-on-failure or without and for any limit; and under
    a caller's context that is live the goroutines of such a batch can
    always run to the join.  It is the state of the context at the join
    that counts, not at the call of [Go]: [Go] returns before its
    goroutine checks the context. *)
Theorem C2_all_tasks_succeed pctx opts r w :
  New pctx opts = Some r -> reachable r w -> parent (rn w) = None ->
  Forall (fun c => f c = None) (calls w) ->
  (exists sched w',
     acts sched /\ run sched w = Some w' /\ joined w' = true /\
     f <$> calls w' = f <$> calls w /\ parent (rn w') = None) /\
  (joined w = true ->
   Wait (rn w) = Some [] /\ Forall (fun c => runs c = 1) (calls w)).
Proof.
  intros Hnew Hreach Hp Hnil.
  pose proof (inv_reachable _ _ _ _ Hnew Hreach) as Hinv.
  split.
  { destruct (completes_joined w Hinv) as (sched & w' & ? & ? & ? & ? & Hp').
    exists sched, w'. split_and!; try done. by rewrite Hp'. }
  intros Hj.
  assert (Err (ctx (rn w)) = None) as Hlive.
  { destruct (Err (ctx (rn w))) eqn:E; [|done]. exfalso.
    destruct (done_by_failure w Hinv Hp) as (c & e1 & Hc & _ & Hf & _).
    { by rewrite E. }
    rewrite Forall_forall in Hnil. apply list_elem_of_In in Hc.
    rewrite (Hnil c Hc) in Hf. done. }
  destruct (joined_results _ Hinv Hj Hlive) as [Hran Herrs].
  split.
  - unfold joined in Hj. apply andb_prop in Hj as [Hwg _].
    unfold Wait, Clone. rewrite Hwg. f_equal.
    apply Permutation_nil_r. rewrite Herrs, failures_fmap.
    assert (omap f (calls w) = []) as ->; [|done].
    clear -Hnil. induction Hnil as [|c l Hc _ IH]; csimpl; [done|].
    by rewrite Hc.
  - eapply Forall_impl; [|exact Hran]. by intros c [? _].
Qed.

(** Four tasks that return nil, under cancel-on-failure. *)
Definition quiet_batch : list label :=
  [Go None; Go None; Go None; Go None] ++
  through 2 7 ++ through 0 7 ++ through 3 7 ++ through 1 7.

Lemma C2_witness :
  New None [WithCancelOnFailure] = Some cancelling /\
  reachable cancelling (after quiet_batch cancelling) /\
  parent (rn (after quiet_batch cancelling)) = None /\
  Forall (fun c => f c = None) (calls (after quiet_batch cancelling)) /\
  joined (after quiet_batch cancelling) = true /\
  Wait (rn (after quiet_batch cancelling)) = Some [] /\
  Forall (fun c => runs c = 1) (calls (after quiet_batch cancelling)).
Proof.
  assert (H1 : New None [WithCancelOnFailure] = Some cancelling)
    by reflexivity.
  assert (H2 : reachable cancelling (after quiet_batch cancelling))
    by (exists quiet_batch; vm_compute; reflexivity).
  assert (H3 : parent (rn (after quiet_batch cancelling)) = None)
    by (vm_compute; reflexivity).
  assert (H4 : Forall (fun c => f c = None)
                 (calls (after quiet_batch cancelling)))
    by (vm_compute; repeat constructor).
  assert (H5 : joined (after quiet_batch cancelling) = true)
    by (vm_compute; reflexivity).
  refine (conj H1 (conj H2 (conj H3 (conj H4 (conj H5 _))))).
  exact (proj2 (C2_all_tasks_succeed _ _ _ _ H1 H2 H3 H4) H5).
Defined.

(** [Go] has returned under a live context; the caller cancels before the
    goroutine reaches its check. *)
Definition cancelled_after_Go : list label :=
  [Go None; Act 0; Act 0; End (ByCancel None)] ++ through 0 5.

(** C2 as stated, for any caller's context. *)
Definition C2_as_stated (pctx : context) (opts : list Option)
    (sched : list label) : Prop :=
  forall r w,
    New pctx opts = Some r -> run sched (start r) = Some w ->
    joined w = true -> Forall (fun c => f c = None) (calls w) ->
    Wait (rn w) = Some [] /\ Forall (fun c => runs c = 1) (calls w).

(** The caller's context is cancelled before the batch: the task, whose
    body returns nil, is skipped and [Wait] returns its cancellation
    error.  The same happens to a task submitted under a live context
    that is cancelled after [Go] has returned and before the goroutine
    checks it. *)
Lemma C2_counterexample :
  ~ C2_as_stated (Some (Canceled, Canceled)) [] one_skip /\
  ~ C2_as_stated None [] cancelled_after_Go.
Proof.
  split; intros H.
  - destruct (H _ (after one_skip
                     (mkRunner (Some (Canceled, Canceled)) None
                        false 0 [] 0 0 [] []))
                eq_refl eq_refl eq_refl) as [Hwait _].
    + repeat constructor.
    + discriminate Hwait.
  - destruct (H _ (after cancelled_after_Go
                     (mkRunner None None false 0 [] 0 0 [] []))
                eq_refl eq_refl eq_refl) as [Hwait _].
    + repeat constructor.
    + discriminate Hwait.
Qed.

(** ** The marker of a skip after a failure *)







(** ** Tasks submitted one after the other *)

(** Every [Go] of the schedule is called when a [Wait] just before it
    returns: each submission is followed by a join before the next. *)
Fixpoint sequential (sched : list label) (w : world) : bool :=
  match sched with
  | [] => true
  | l :: sched' =>
      match l with Go _ => joined w | _ => true end &&
      match step l w with
      | Some w' => sequential sched' w'
      | None => true
      end
  end.

(** The first non-nil error of a list. *)
Definition first_failure (fs : list error) : error := head (omap id fs).

(** What a task leaves in [result] and how often its body ran, given the
    first failure among the tasks before it. *)
Definition expected (before f0 : error) : error * nat :=
  match before with
  | Some e => (causeForTaskSkip (Some (Canceled, e)), 0)
  | None => (f0, 1)
  end.

Record seq_inv (w : world) : Prop := mkSeqInv {
  seq_quiesced : forall i c,
    calls w !! i = Some c -> S i < length (calls w) -> quiesced c = true;
  seq_running : forall i c,
    calls w !! i = Some c -> at_ c = AtCall ->
    first_failure (take i (f <$> calls w)) = None;
  seq_result : forall i c,
    calls w !! i = Some c -> past_check c = true ->
    (result c, runs c)
    = expected (first_failure (take i (f <$> calls w))) (f c);
}.

Lemma first_failure_hit (fs : list error) k i e :
  fs !! k = Some (Some e) -> first_failure (take k fs) = None -> k < i ->
  first_failure (take i fs) = Some e.
Proof.
  unfold first_failure. revert k i.
  induction fs as [|x fs IH]; intros [|k] [|i] Hk Hnone Hlt;
    simplify_eq/=; try lia; [done|].
  destruct x as [e'|]; csimpl in *; [done|].
  apply (IH k); [done|done|lia].
Qed.

Lemma first_failure_first (fs : list error) e :
  first_failure fs = Some e ->
  exists k, fs !! k = Some (Some e) /\ first_failure (take k fs) = None.
Proof.
  unfold first_failure. induction fs as [|x fs IH]; csimpl; [done|].
  destruct x as [e'|]; csimpl.
  - intros [= ->]. by exists 0.
  - intros H. destruct (IH H) as (k & Hk & Hnone). by exists (S k).
Qed.

(** What an action does to the call that takes it. *)
Inductive moves (r : Runner) (c c' : call) : Prop :=
| moves_on :
    past_check c = true -> past_check c' = true ->
    result c' = result c -> runs c' = runs c ->
    (quiesced c = true -> quiesced c' = true) -> moves r c c'
| moves_in :
    quiesced c = false -> past_check c' = false -> at_ c' <> AtCall ->
    moves r c c'
| moves_call :
    quiesced c = false -> Err (ctx r) = None -> at_ c' = AtCall ->
    past_check c' = false -> moves r c c'
| moves_skip :
    quiesced c = false -> at_ c = AtCtxCheck -> Err (ctx r) <> None ->
    past_check c' = true ->
    result c' = causeForTaskSkip (ctx r) -> runs c' = runs c -> moves r c c'
| moves_return :
    at_ c = AtCall -> past_check c' = true ->
    result c' = f c -> runs c' = S (runs c) -> moves r c c'.

Lemma action_moves c r r' c' :
  action c r = Some (r', c') -> moves r c c'.
Proof.
  unfold action, maybeSemInc, maybeSemDec, wg_Done. intros Hact.
  destruct (at_ c) eqn:Hat; simpl in Hact.
  all: repeat match type of Hact with
       | context [if ?b then _ else _] => destruct b eqn:?
       | context [match ?x with _ => _ end] => destruct x eqn:?
       end; simplify_option_eq.
  all: repeat match goal with
       | H : bool_decide _ = true |- _ => apply bool_decide_eq_true in H
       | H : bool_decide _ = false |- _ => apply bool_decide_eq_false in H
       end.
  all: try first
         [ by (apply moves_on; unfold past_check, quiesced; simpl;
               rewrite ?Hat)
         | by (apply moves_in; unfold past_check, quiesced; simpl;
               rewrite ?Hat)
         | by (apply moves_skip; unfold past_check, quiesced; simpl;
               rewrite ?Hat)
         | by (apply moves_return; unfold past_check, quiesced; simpl;
               rewrite ?Hat) ].
  apply moves_call; unfold past_check, quiesced; simpl;
    rewrite ?Hat; try done.
  match goal with
  | H : ~ (?x <> None) |- ?x = None => destruct x; [exfalso; by apply H|done]
  end.
Qed.

Lemma past_check_not_running c : past_check c = true -> at_ c <> AtCall.
Proof. unfold past_check. by destruct (at_ c). Qed.

Lemma quiesced_past_check c : quiesced c = true -> past_check c = true.
Proof. unfold quiesced, past_check. by destruct (at_ c). Qed.

Lemma not_past_check_runs w c :
  inv w -> c ∈ calls w -> past_check c = false -> runs c = 0.
Proof.
  intros Hinv Hc Hpast. pose proof (inv_calls _ Hinv) as Hcalls.
  rewrite Forall_forall in Hcalls. apply list_elem_of_In in Hc.
  specialize (Hcalls c Hc). unfold call_ok in Hcalls.
  rewrite Hpast in Hcalls. by destruct Hcalls.
Qed.

(** Once a call has passed an error to the trigger, [r.ctx] is done. *)
Lemma tried_done w c e :
  inv w -> ShouldCancel (rn w) = true -> parent (rn w) = None ->
  c ∈ calls w -> tried c = Some e -> Err (ctx (rn w)) <> None.
Proof.
  intros Hinv Hsc Hp Hc Htried.
  pose proof (inv_attempts _ Hinv) as Hatt. rewrite Hsc in Hatt.
  assert (Some e ∈ attempts (rn w)) as Hin.
  { rewrite Hatt. apply list_elem_of_fmap. exists e. split; [done|].
    apply list_elem_of_omap. eauto. }
  pose proof (inv_cancel_calls _ Hinv) as Hcc.
  unfold ShouldCancel in Hsc. apply bool_decide_eq_true in Hsc as [d Hd].
  destruct (inv_derived _ Hinv _ Hd) as [_ Hd2]. specialize (Hd2 Hp).
  unfold ctx. rewrite Hd, Hd2.
  destruct (attempts (rn w)) as [|a l]; [by apply elem_of_nil in Hin|].
  simpl in Hcc. by rewrite Hcc.
Qed.

Lemma live_no_failure w i :
  inv w -> seq_inv w -> ShouldCancel (rn w) = true ->
  parent (rn w) = None -> Err (ctx (rn w)) = None ->
  (forall k c, k < i -> calls w !! k = Some c -> quiesced c = true) ->
  first_failure (take i (f <$> calls w)) = None.
Proof.
  intros Hinv Hseq Hsc Hp Hlive Hq.
  destruct (first_failure (take i (f <$> calls w))) as [e|] eqn:Hff; [|done].
  exfalso. apply first_failure_first in Hff as (k & Hk & Hnone).
  apply lookup_take_Some in Hk as [Hk Hlt].
  rewrite take_take, Nat.min_l in Hnone by lia.
  rewrite list_lookup_fmap in Hk.
  destruct (calls w !! k) as [c|] eqn:Hc; [|done]. simpl in Hk.
  injection Hk as Hf.
  pose proof (Hq k c Hlt Hc) as Hqc.
  pose proof (seq_result _ Hseq k c Hc (quiesced_past_check _ Hqc)) as Hres.
  rewrite Hnone in Hres. simpl in Hres. injection Hres as Hres _.
  eapply (tried_done w c e); try done.
  - apply list_elem_of_lookup. eauto.
  - unfold tried. unfold quiesced in Hqc. rewrite Hres, Hf.
    by destruct (at_ c).
Qed.

Lemma done_first_failure w i c :
  inv w -> seq_inv w -> parent (rn w) = None ->
  calls w !! i = Some c -> S i = length (calls w) -> runs c = 0 ->
  Err (ctx (rn w)) <> None ->
  exists e, ctx (rn w) = Some (Canceled, e) /\
    first_failure (take i (f <$> calls w)) = Some e.
Proof.
  intros Hinv Hseq Hp Hi Hlast Hruns Hdone.
  destruct (done_by_failure w Hinv Hp Hdone)
    as (c0 & e & Hc0 & Hr0 & Hf0 & _ & Hctx).
  exists e. split; [done|].
  pose proof Hc0 as Hin. apply list_elem_of_lookup in Hc0 as [k Hk].
  assert (k <> i) as Hne by (intros ->; simplify_eq; lia).
  pose proof (lookup_lt_Some _ _ _ Hk) as Hlt.
  assert (past_check c0 = true) as Hpast.
  { destruct (past_check c0) eqn:E; [done|].
    pose proof (not_past_check_runs _ _ Hinv Hin E). lia. }
  pose proof (seq_result _ Hseq k c0 Hk Hpast) as Hres.
  apply (first_failure_hit _ k); [|  |lia].
  - by rewrite list_lookup_fmap, Hk, <- Hf0.
  - destruct (first_failure (take k (f <$> calls w))); [|done].
    simpl in Hres. injection Hres as _ Hres. lia.
Qed.

Lemma seq_inv_Go w f0 :
  inv w -> seq_inv w -> joined w = true ->
  seq_inv (mkWorld (rn w) (calls w ++ [mkCall f0 None AtSemInc 0])).
Proof.
  intros Hinv Hseq Hj. pose proof (joined_quiesced _ Hinv Hj) as Hq.
  rewrite Forall_forall in Hq.
  assert (Hold : forall j c,
            (calls w ++ [mkCall f0 None AtSemInc 0]) !! j = Some c ->
            calls w !! j = Some c /\ quiesced c = true \/
            j = length (calls w) /\ c = mkCall f0 None AtSemInc 0).
  { intros j c Hj'. apply lookup_app_Some in Hj' as [Hj'|[Hge Hj']].
    - left. split; [done|]. apply Hq, list_elem_of_In, list_elem_of_lookup.
      eauto.
    - right. apply list_lookup_singleton_Some in Hj' as [? <-].
      split; [lia|done]. }
  split; simpl.
  - intros j c Hj' Hlt. destruct (Hold _ _ Hj') as [[_ ?]|[-> _]]; [done|].
    rewrite length_app in Hlt. simpl in Hlt. lia.
  - intros j c Hj' Hat. destruct (Hold _ _ Hj') as [[_ Hqc]|[_ ->]]; [|done].
    unfold quiesced in Hqc. by rewrite Hat in Hqc.
  - intros j c Hj' Hpast.
    destruct (Hold _ _ Hj') as [[Hjc _]|[_ ->]]; [|done].
    rewrite fmap_app, take_app_le.
    + by apply (seq_result _ Hseq).
    + rewrite length_fmap. apply lookup_lt_Some in Hjc. lia.
Qed.

Lemma seq_inv_Act w i c r' c' :
  inv w -> seq_inv w -> ShouldCancel (rn w) = true ->
  parent (rn w) = None ->
  calls w !! i = Some c -> action c (rn w) = Some (r', c') ->
  seq_inv (mkWorld r' (<[i:=c']> (calls w))).
Proof.
  intros Hinv Hseq Hsc Hp Hi Hact.
  destruct (action_frame _ _ _ _ Hact) as (_ & _ & _ & Hf & _).
  pose proof (action_moves _ _ _ _ Hact) as Hm.
  pose proof (lookup_lt_Some _ _ _ Hi) as Hlt.
  assert (Hfs : f <$> <[i:=c']> (calls w) = f <$> calls w).
  { rewrite list_fmap_insert, Hf. apply list_insert_id.
    by rewrite list_lookup_fmap, Hi. }
  assert (Hin : c ∈ calls w) by (apply list_elem_of_lookup; eauto).
  assert (Hlast : quiesced c = false -> S i = length (calls w)).
  { intros Hnq. destruct (decide (S i < length (calls w))); [|lia].
    pose proof (seq_quiesced _ Hseq i c Hi). by rewrite H in Hnq. }
  assert (Hbefore : quiesced c = false ->
            forall k ck, k < i -> calls w !! k = Some ck -> quiesced ck = true).
  { intros Hl k ck Hk Hck. apply (seq_quiesced _ Hseq k ck Hck). lia. }
  split; simpl; rewrite ?Hfs, ?length_insert.
  - intros j cj Hj Hlen. destruct (decide (j = i)) as [->|Hne].
    + rewrite list_lookup_insert_eq in Hj by done. simplify_eq.
      pose proof (seq_quiesced _ Hseq i c Hi Hlen) as Hq.
      destruct Hm; try congruence; auto.
      unfold quiesced in Hq. by rewrite H in Hq.
    + rewrite list_lookup_insert_ne in Hj by done.
      by apply (seq_quiesced _ Hseq j).
  - intros j cj Hj Hat. destruct (decide (j = i)) as [->|Hne].
    + rewrite list_lookup_insert_eq in Hj by done. simplify_eq.
      destruct Hm; try done;
        try match goal with
            | Hpc : past_check ?x = true, Ha : at_ ?x = AtCall |- _ =>
                by apply past_check_not_running in Hpc
            end.
      apply live_no_failure; auto. by apply Hbefore.
    + rewrite list_lookup_insert_ne in Hj by done.
      by apply (seq_running _ Hseq j cj).
  - intros j cj Hj Hpast. destruct (decide (j = i)) as [->|Hne].
    + rewrite list_lookup_insert_eq in Hj by done. simplify_eq.
      destruct Hm as [Hpc _ Hres Hruns _| |
                      |Hnq Hat Hdone _ Hres Hruns|Hat _ Hres Hruns];
        try congruence.
      * rewrite Hres, Hruns, Hf. by apply (seq_result _ Hseq).
      * assert (runs c = 0) as Hr0.
        { eapply not_past_check_runs; [done|done|].
          unfold past_check. by rewrite Hat. }
        destruct (done_first_failure w i c) as (e & Hctx & Hff); auto.
        rewrite Hff, Hres, Hruns, Hctx, Hr0. done.
      * assert (runs c = 0) as Hr0.
        { eapply not_past_check_runs; [done|done|].
          unfold past_check. by rewrite Hat. }
        rewrite (seq_running _ Hseq i c Hi Hat), Hres, Hruns, Hr0, Hf. done.
    + rewrite list_lookup_insert_ne in Hj by done.
      by apply (seq_result _ Hseq j).
Qed.

Lemma seq_inv_start r : seq_inv (start r).
Proof. split; simpl; intros i c Hi; by rewrite lookup_nil in Hi. Qed.

Lemma seq_inv_run sched w w' :
  inv w -> seq_inv w -> ShouldCancel (rn w) = true ->
  sequential sched w = true -> run sched w = Some w' ->
  parent (rn w') = None -> seq_inv w'.
Proof.
  revert w. induction sched as [|l sched IH];
    intros w Hinv Hseq Hsc Hsched Hrun Hp.
  - simpl in Hrun. by simplify_eq.
  - rewrite run_cons in Hrun. simpl in Hsched.
    apply andb_prop in Hsched as [Hgo Hsched].
    destruct (step l w) as [w1|] eqn:Hstep; [|done]. simpl in Hrun.
    destruct (run_frame _ _ _ Hrun) as (_ & _ & _ & Hp1). specialize (Hp1 Hp).
    destruct (step_frame _ _ _ Hstep) as (_ & Hsc1 & _ & Hp0).
    specialize (Hp0 Hp1).
    apply (IH w1); try done; [by eapply inv_step| |congruence].
    destruct l as [f0|i|how]; simpl in Hstep.
    + simplify_eq. by apply seq_inv_Go.
    + destruct (calls w !! i) as [c|] eqn:Hi; [|done]. simpl in Hstep.
      destruct (action c (rn w)) as [[r' c']|] eqn:Hact; simplify_eq/=.
      by eapply seq_inv_Act.
    + simplify_eq/=. unfold end_parent in Hp1. by rewrite Hp0 in Hp1.
Qed.

Lemma sequential_acts sched w : acts sched -> sequential sched w = true.
Proof.
  intros Hacts. revert w. induction Hacts as [|l sched [i ->] _ IH];
    intros w; [done|].
  cbn [sequential]. destruct (step (Act i) w); [apply IH|done].
Qed.

Lemma sequential_app s1 s2 w w' :
  sequential s1 w = true -> run s1 w = Some w' -> acts s2 ->
  sequential (s1 ++ s2) w = true.
Proof.
  revert w. induction s1 as [|l s1 IH]; intros w Hseq Hrun Hacts.
  - simpl. by apply sequential_acts.
  - rewrite run_cons in Hrun. cbn [sequential app] in *.
    apply andb_prop in Hseq as [Hgo Hseq]. rewrite Hgo. simpl.
    destruct (step l w) as [w1|]; [|done]. by apply IH.
Qed.

Lemma first_failure_none (fs : list error) :
  Forall (fun e => e = None) fs -> first_failure fs = None.
Proof.
  unfold first_failure. induction 1 as [|x fs -> _ IH]; csimpl; [done|].
  apply IH.
Qed.

Lemma omap_all_none {A B : Type} (g : A -> option B) (l : list A) :
  Forall (fun x => g x = None) l -> omap g l = [].
Proof. induction 1 as [|x l Hx _ IH]; csimpl; [done|]. by rewrite Hx. Qed.

Lemma omap_all_some {A B : Type} (g : A -> option B) (l : list A) (b : B) :
  Forall (fun x => g x = Some b) l -> omap g l = replicate (length l) b.
Proof.
  induction 1 as [|x l Hx _ IH]; csimpl; [done|]. by rewrite Hx, IH.
Qed.

(** What sequential submission leaves behind, once joined. *)
Lemma sequential_results w pre e0 post :
  inv w -> seq_inv w -> joined w = true ->
  f <$> calls w = pre ++ Some e0 :: post ->
  Forall (fun e => e = None) pre ->
  forall i c, calls w !! i = Some c ->
    quiesced c = true /\
    (i < length pre -> f c = None /\ result c = None /\ runs c = 1) /\
    (i = length pre -> result c = Some e0 /\ runs c = 1) /\
    (length pre < i ->
     result c = causeForTaskSkip (Some (Canceled, e0)) /\ runs c = 0).
Proof.
  intros Hinv Hseq Hj Hfs Hpre i c Hi.
  pose proof (joined_quiesced _ Hinv Hj) as Hq. rewrite Forall_forall in Hq.
  assert (quiesced c = true) as Hqc.
  { apply Hq, list_elem_of_In, list_elem_of_lookup. eauto. }
  pose proof (seq_result _ Hseq i c Hi (quiesced_past_check _ Hqc)) as Hres.
  rewrite Hfs in Hres.
  assert ((pre ++ Some e0 :: post) !! i = Some (f c)) as Hfi.
  { by rewrite <- Hfs, list_lookup_fmap, Hi. }
  split_and!; [done| | |].
  - intros Hlt. rewrite take_app_le in Hres by lia.
    rewrite first_failure_none in Hres by by apply Forall_take.
    simpl in Hres. injection Hres as Hr1 Hr2.
    rewrite lookup_app_l in Hfi by done.
    rewrite Forall_forall in Hpre.
    assert (f c = None) as Hf.
    { apply Hpre, list_elem_of_In, list_elem_of_lookup. eauto. }
    split_and!; congruence.
  - intros ->. rewrite take_app_length in Hres.
    rewrite first_failure_none in Hres by done.
    simpl in Hres. injection Hres as Hr1 Hr2.
    rewrite list_lookup_middle in Hfi by done. split; congruence.
  - intros Hlt.
    rewrite (first_failure_hit _ (length pre) i e0) in Hres;
      [|by apply list_lookup_middle| |done].
    + simpl in Hres. injection Hres as Hr1 Hr2. done.
    + rewrite take_app_length. by apply first_failure_none.
Qed.

Lemma recorded_quiesced c : quiesced c = true -> recorded c = result c.
Proof. unfold quiesced, recorded. by destruct (at_ c). Qed.

(** C3, as the code has it: with cancel-on-failure on, a live caller's
    context and every [Go] followed by a [Wait], let the first task to
    return a non-nil error return [e0], an error that [errors.Is] does not
    recognise as [context.Canceled] or [context.DeadlineExceeded].  The
    goroutines can always run to the join; after it, the tasks up to and
    including the failing one have run, every task submitted after it was
    skipped and holds [context.Canceled], which is not nil and is not
    [e0], and [Wait] returns [e0] once and [context.Canceled] once per
    later task: for 8 tasks with the one at index 1 failing, 7 errors, 6
    of them cancellations and 1 the original failure. *)
Theorem C3_sequential_skips_after_failure pctx opts r sched w pre e0 post :
  New pctx opts = Some r -> CancelOnFailure (configure opts) = true ->
  run sched (start r) = Some w -> sequential sched (start r) = true ->
  parent (rn w) = None ->
  f <$> calls w = pre ++ Some e0 :: post ->
  Forall (fun e => e = None) pre -> standard (Some e0) = false ->
  (exists sched' w',
     acts sched' /\ run (sched ++ sched') (start r) = Some w' /\
     sequential (sched ++ sched') (start r) = true /\
     joined w' = true /\ f <$> calls w' = f <$> calls w /\
     parent (rn w') = None) /\
  (joined w = true ->
   (forall i c, calls w !! i = Some c -> i <= length pre ->
      runs c = 1 /\ result c = f c) /\
   (forall i c, calls w !! i = Some c -> length pre < i ->
      runs c = 0 /\ result c = Some Canceled /\
      result c <> None /\ result c <> Some e0) /\
   exists es,
     Wait (rn w) = Some es /\
     es ≡ₚ Some e0 :: replicate (length post) (Some Canceled)).
Proof.
  intros Hnew Hcof Hrun Hsched Hp Hfs Hpre Hstd.
  assert (reachable r w) as Hreach by by exists sched.
  pose proof (inv_reachable _ _ _ _ Hnew Hreach) as Hinv.
  assert (ShouldCancel (rn (start r)) = true) as Hsc.
  { destruct (New_fields _ _ _ Hnew) as (_ & Hder & _ & _).
    rewrite Hcof in Hder. unfold ShouldCancel. simpl. rewrite Hder.
    apply bool_decide_eq_true. eauto. }
  assert (seq_inv w) as Hseq.
  { eapply (seq_inv_run sched (start r)); try done;
      first [by eapply inv_start|apply seq_inv_start]. }
  split.
  { destruct (completes_joined w Hinv)
      as (sched' & w' & Ha & Hrun' & Hj & Hf & Hp').
    exists sched', w'.
    split_and!; [done| |by eapply sequential_app|done|done|by rewrite Hp'].
    by rewrite run_app, Hrun. }
  intros Hj.
  pose proof (sequential_results w pre e0 post Hinv Hseq Hj Hfs Hpre) as Hres.
  assert (causeForTaskSkip (Some (Canceled, e0)) = Some Canceled) as Hskip.
  { unfold causeForTaskSkip. simpl. by rewrite Hstd. }
  split_and!.
  - intros i c Hi Hle. destruct (Hres i c Hi) as (_ & H1 & H2 & _).
    destruct (decide (i = length pre)) as [->|Hne].
    + destruct (H2 eq_refl) as [Hr ?]. split; [done|]. rewrite Hr.
      assert ((f <$> calls w) !! length pre = Some (f c)) as Hfc
        by by rewrite list_lookup_fmap, Hi.
      rewrite Hfs, list_lookup_middle in Hfc by done. congruence.
    + destruct H1 as (? & ? & ?); [lia|]. split; congruence.
  - intros i c Hi Hlt. destruct (Hres i c Hi) as (_ & _ & _ & H3).
    destruct (H3 Hlt) as [Hr ?]. rewrite Hr, Hskip.
    split_and!; [done|done|done|].
    intros [= <-]. by rewrite standard_Canceled in Hstd.
  - exists (errs (rn w)). split.
    { unfold joined in Hj. apply andb_prop in Hj as [Hwg _].
      unfold Wait. by rewrite Hwg. }
    rewrite (inv_errs _ Hinv).
    assert (length (calls w) = length pre + S (length post)) as Hlen.
    { rewrite <- (length_fmap f), Hfs, length_app. done. }
    destruct (lookup_lt_is_Some_2 (calls w) (length pre)) as [c0 Hc0]; [lia|].
    rewrite <- (take_drop_middle _ _ _ Hc0).
    rewrite omap_app. csimpl.
    destruct (Hres _ _ Hc0) as (Hq0 & _ & H2 & _).
    destruct (H2 eq_refl) as [Hr0 _].
    rewrite (recorded_quiesced _ Hq0), Hr0.
    rewrite (omap_all_none recorded (take (length pre) (calls w))).
    2: { apply Forall_lookup. intros i c Hi.
         apply lookup_take_Some in Hi as [Hi Hlt].
         destruct (Hres _ _ Hi) as (Hq & H1 & _).
         destruct (H1 Hlt) as (_ & ? & _).
         by rewrite (recorded_quiesced _ Hq). }
    rewrite (omap_all_some recorded (drop (S (length pre)) (calls w)) Canceled).
    2: { apply Forall_lookup. intros i c Hi. rewrite lookup_drop in Hi.
         destruct (Hres _ _ Hi) as (Hq & _ & _ & H3).
         destruct H3 as [Hr _]; [lia|].
         by rewrite (recorded_quiesced _ Hq), Hr, Hskip. }
    rewrite length_drop, Hlen. simpl. rewrite fmap_replicate.
    by replace (length pre + S (length post) - S (length pre))
      with (length post) by lia.
Qed.

(** Eight tasks, each submitted after the one before has been joined;
    only the task at index 1 fails. *)
Definition eight_tasks : list label :=
  (Go None :: through 0 7) ++
  (Go (Some (errorString 1)) :: through 1 8) ++
  (Go None :: through 2 7) ++ (Go None :: through 3 7) ++
  (Go None :: through 4 7) ++ (Go None :: through 5 7) ++
  (Go None :: through 6 7) ++ (Go None :: through 7 7).

Lemma C3_witness :
  New None [WithCancelOnFailure] = Some cancelling /\
  CancelOnFailure (configure [WithCancelOnFailure]) = true /\
  run eight_tasks (start cancelling) = Some (after eight_tasks cancelling) /\
  sequential eight_tasks (start cancelling) = true /\
  parent (rn (after eight_tasks cancelling)) = None /\
  f <$> calls (after eight_tasks cancelling)
    = [None] ++ Some (errorString 1) :: replicate 6 None /\
  Forall (fun e : error => e = None) [None] /\
  standard (Some (errorString 1)) = false /\
  joined (after eight_tasks cancelling) = true /\
  exists es,
    Wait (rn (after eight_tasks cancelling)) = Some es /\
    es ≡ₚ Some (errorString 1)
          :: replicate (length (replicate 6 (None : error))) (Some Canceled).
Proof.
  assert (H1 : New None [WithCancelOnFailure] = Some cancelling)
    by reflexivity.
  assert (H2 : CancelOnFailure (configure [WithCancelOnFailure]) = true)
    by reflexivity.
  assert (H3 : run eight_tasks (start cancelling)
               = Some (after eight_tasks cancelling))
    by (vm_compute; reflexivity).
  assert (H4 : sequential eight_tasks (start cancelling) = true)
    by (vm_compute; reflexivity).
  assert (H5 : parent (rn (after eight_tasks cancelling)) = None)
    by (vm_compute; reflexivity).
  assert (H6 : f <$> calls (after eight_tasks cancelling)
               = [None] ++ Some (errorString 1) :: replicate 6 None)
    by (vm_compute; reflexivity).
  assert (H7 : Forall (fun e : error => e = None) [None])
    by (repeat constructor).
  assert (H8 : standard (Some (errorString 1)) = false) by reflexivity.
  assert (H9 : joined (after eight_tasks cancelling) = true)
    by (vm_compute; reflexivity).
  refine (conj H1 (conj H2 (conj H3 (conj H4 (conj H5 (conj H6
           (conj H7 (conj H8 (conj H9 _))))))))).
  exact (proj2 (proj2 (proj2
           (C3_sequential_skips_after_failure _ _ _ _ _ _ _ _
              H1 H2 H3 H4 H5 H6 H7 H8) H9))).
Defined.

(** C3 as stated: in a sequential execution under cancel-on-failure,
    every task submitted after one that ran and returned a non-nil error
    is skipped and holds a non-nil error other than that one. *)
Definition C3_as_stated (sched : list label) : Prop :=
  forall r w i j c0 c,
    New None [WithCancelOnFailure] = Some r ->
    run sched (start r) = Some w -> sequential sched (start r) = true ->
    joined w = true -> i < j ->
    calls w !! i = Some c0 -> runs c0 = 1 -> f c0 <> None ->
    calls w !! j = Some c ->
    runs c = 0 /\ result c <> None /\ result c <> f c0.

(** A task returns [context.Canceled] itself; the next one is skipped
    and records [context.Canceled] too. *)
Definition cancel_then_skip : list label :=
  (Go (Some Canceled) :: through 0 8) ++ (Go None :: through 1 7).

Lemma C3_counterexample : ~ C3_as_stated cancel_then_skip.
Proof.
  intros H.
  destruct (H cancelling (after cancel_then_skip cancelling) 0 1
              (mkCall (Some Canceled) (Some Canceled) Exited 1)
              (mkCall None (Some Canceled) Exited 0))
    as (_ & _ & Hne); try (vm_compute; reflexivity); try done; lia.
Qed.

(** * More about the runner *)

(** ** The deferred cleanup of [Go] *)

(** X1: once a call of [Go] has taken its slot, nothing in [Go] itself
    holds it back: in every reachable state such a call can take its
    next action.  In particular [r.wg.Done()] finds a positive counter
    (it never panics), and with a limit [<-r.sem] finds a value in the
    channel (it never blocks). *)
Theorem cleanup_never_panics_or_blocks pctx opts r w i c :
  New pctx opts = Some r -> reachable r w -> calls w !! i = Some c ->
  at_ c <> AtSemInc -> at_ c <> Exited ->
  is_Some (step (Act i) w) /\
  (at_ c = AtWgDone -> is_Some (wg_Done (rn w))) /\
  (at_ c = AtSemDec -> is_Some (maybeSemDec (rn w))).
Proof.
  intros Hnew Hreach Hi Hinc Hex.
  pose proof (inv_reachable _ _ _ _ Hnew Hreach) as Hinv.
  destruct (act_enabled w i c Hinv Hi Hex) as [w' Hstep]; [done|].
  split; [by eexists|].
  simpl in Hstep. rewrite Hi in Hstep. simpl in Hstep.
  destruct (action c (rn w)) as [[r' c']|] eqn:Hact; [|done].
  unfold action in Hact.
  split; intros Hat; rewrite Hat in Hact.
  - destruct (wg_Done (rn w)); [by eexists|done].
  - destruct (maybeSemDec (rn w)); [by eexists|done].
Qed.

(** One call under a limit of two, stopped in front of [r.wg.Done()]. *)
Definition before_Done : list label := Go None :: through 0 5.

Lemma cleanup_never_panics_or_blocks_witness :
  New None [WithLimit 2] = Some limit2 /\
  reachable limit2 (after before_Done limit2) /\
  calls (after before_Done limit2) !! 0 = Some (mkCall None None AtWgDone 1) /\
  is_Some (step (Act 0) (after before_Done limit2)).
Proof.
  assert (H1 : New None [WithLimit 2] = Some limit2) by reflexivity.
  assert (H2 : reachable limit2 (after before_Done limit2))
    by (exists before_Done; reflexivity).
  assert (H3 : calls (after before_Done limit2) !! 0
               = Some (mkCall None None AtWgDone 1)) by reflexivity.
  split_and!; [exact H1|exact H2|exact H3|].
  refine (proj1 (cleanup_never_panics_or_blocks _ _ _ _ _ _ H1 H2 H3 _ _));
    discriminate.
Defined.

(** ** Termination *)

Lemma fuel_bound w : fuel w <= 8 * length (calls w).
Proof.
  unfold fuel. induction (calls w) as [|c l IH]; csimpl; [lia|].
  assert (rank c <= 8) by (unfold rank; destruct (at_ c); lia). lia.
Qed.

(** X2: the goroutines of a runner always terminate, given that the task
    bodies return.  From a reachable state, a schedule in which only
    goroutines move has at most eight actions for each call of [Go]; it
    can always be continued until every call has exited; and when no
    call can move any more, every call has exited. *)
Theorem goroutines_terminate pctx opts r w sched w' :
  New pctx opts = Some r -> reachable r w ->
  acts sched -> run sched w = Some w' ->
  length sched <= 8 * length (calls w) /\
  (exists sched' w'',
     acts sched' /\ run (sched ++ sched') w = Some w'' /\ all_exited w'') /\
  ((forall i, step (Act i) w' = None) -> all_exited w').
Proof.
  intros Hnew Hreach Hacts Hrun.
  pose proof (inv_reachable _ _ _ _ Hnew Hreach) as Hinv.
  pose proof (inv_run _ _ _ Hinv Hrun) as Hinv'.
  destruct (acts_run _ _ _ Hacts Hrun) as (Hlen & _ & _).
  pose proof (fuel_bound w). split_and!; [lia| |].
  - destruct (completes w' Hinv') as (sched' & w'' & Ha & Hrun' & Hall).
    exists sched', w''. split_and!; [done| |done].
    by rewrite run_app, Hrun.
  - intros Hstuck. destruct (decide (all_exited w')) as [|Hnot]; [done|].
    destruct (progress w' Hinv' Hnot) as (i & w1 & Hstep).
    by rewrite Hstuck in Hstep.
Qed.

Lemma goroutines_terminate_witness :
  New None [WithLimit 2] = Some limit2 /\
  reachable limit2 (after [Go None] limit2) /\
  acts (through 0 5) /\
  run (through 0 5) (after [Go None] limit2)
    = Some (after before_Done limit2) /\
  length (through 0 5) <= 8 * length (calls (after [Go None] limit2)).
Proof.
  assert (H1 : New None [WithLimit 2] = Some limit2) by reflexivity.
  assert (H2 : reachable limit2 (after [Go None] limit2))
    by (exists [Go None]; reflexivity).
  assert (H3 : acts (through 0 5))
    by (repeat (constructor; [by exists 0|]); constructor).
  assert (H4 : run (through 0 5) (after [Go None] limit2)
               = Some (after before_Done limit2)) by reflexivity.
  split_and!; [exact H1|exact H2|exact H3|exact H4|].
  exact (proj1 (goroutines_terminate _ _ _ _ _ _ H1 H2 H3 H4)).
Defined.

(** ** What is left when every goroutine has exited *)

(** X3: when every call of [Go] has exited, nothing is left behind: the
    wait group is at zero, every slot of the semaphore has been given
    back, so [Wait] returns and the next call of [Go] is admitted at
    once. *)
Theorem exited_calls_leave_nothing_behind pctx opts r w :
  New pctx opts = Some r -> reachable r w -> all_exited w ->
  wg (rn w) = 0 /\ sem_len (rn w) = 0 /\
  Wait (rn w) = Some (errs (rn w)) /\
  is_Some (maybeSemInc (rn w)).
Proof.
  intros Hnew Hreach Hall.
  pose proof (inv_reachable _ _ _ _ Hnew Hreach) as Hinv.
  assert (wg (rn w) = 0) as Hwg.
  { rewrite (inv_wg _ Hinv). apply count_none.
    eapply Forall_impl; [|exact Hall]. intros c Hc. simpl in Hc.
    unfold in_wg. by rewrite Hc. }
  assert (sem_len (rn w) = 0) as Hsem.
  { rewrite (inv_sem _ Hinv). destruct (hasLimit (rn w)); [|done].
    apply count_none. eapply Forall_impl; [|exact Hall].
    intros c Hc. simpl in Hc. unfold holds_slot. by rewrite Hc. }
  split_and!; [done|done| |].
  - unfold Wait, Clone. by rewrite bool_decide_true.
  - unfold maybeSemInc. destruct (hasLimit (rn w)) eqn:Hlim; [|by eexists].
    unfold hasLimit in Hlim. apply bool_decide_eq_true in Hlim.
    rewrite bool_decide_true by lia. by eexists.
Qed.

Lemma exited_calls_leave_nothing_behind_witness :
  New None [WithLimit 2] = Some limit2 /\
  reachable limit2 (after one_failure limit2) /\
  all_exited (after one_failure limit2) /\
  sem_len (rn (after one_failure limit2)) = 0.
Proof.
  assert (H1 : New None [WithLimit 2] = Some limit2) by reflexivity.
  assert (H2 : reachable limit2 (after one_failure limit2))
    by (exists one_failure; reflexivity).
  assert (H3 : all_exited (after one_failure limit2))
    by (repeat constructor).
  split_and!; [exact H1|exact H2|exact H3|].
  exact (proj1 (proj2 (exited_calls_leave_nothing_behind _ _ _ _ H1 H2 H3))).
Defined.

(** ** The collector only grows *)

Lemma action_errs c r r' c' :
  action c r = Some (r', c') -> errs r `prefix_of` errs r'.
Proof.
  unfold action, maybeSemInc, maybeSemDec, wg_Done, Cancel. intros Hact.
  destruct (at_ c) eqn:Hat; simpl in Hact.
  all: repeat match type of Hact with
       | context [if ?b then _ else _] => destruct b eqn:?
       | context [match ?x with _ => _ end] => destruct x eqn:?
       end; simplify_option_eq; try done.
  by apply prefix_app_r.
Qed.

Lemma run_errs sched w w' :
  run sched w = Some w' -> errs (rn w) `prefix_of` errs (rn w').
Proof.
  revert w. induction sched as [|l sched IH]; intros w Hrun.
  - simpl in Hrun. by simplify_eq.
  - rewrite run_cons in Hrun.
    destruct (step l w) as [w1|] eqn:Hstep; [|done]. simpl in Hrun.
    etrans; [|by apply IH].
    destruct l as [f0|i|how]; simpl in Hstep.
    + by simplify_eq/=.
    + destruct (calls w !! i) as [c|]; [|done]. simpl in Hstep.
      destruct (action c (rn w)) as [[r' c']|] eqn:Hact; simplify_eq/=.
      by eapply action_errs.
    + simplify_eq/=. unfold end_parent. by destruct (parent (rn w)).
Qed.

(** X4: [Wait] does not clear the collector, and nothing ever removes or
    reorders what it holds: whatever happens between two calls of [Wait]
    on the same runner, the sequence the first one returned is a prefix
    of the sequence the second one returns. *)
Theorem Wait_results_only_grow sched w w' es es' :
  run sched w = Some w' ->
  Wait (rn w) = Some es -> Wait (rn w') = Some es' ->
  es `prefix_of` es'.
Proof.
  intros Hrun Hw Hw'. unfold Wait, Clone in *.
  repeat case_bool_decide; simplify_eq. by eapply run_errs.
Qed.

(** A second task, submitted after a first [Wait]. *)
Definition second_failure : list label :=
  Go (Some (errorString 2)) :: through 1 8.

Lemma Wait_results_only_grow_witness :
  run second_failure (after one_failure limit2)
    = Some (after (one_failure ++ second_failure) limit2) /\
  Wait (rn (after one_failure limit2)) = Some [Some (errorString 1)] /\
  Wait (rn (after (one_failure ++ second_failure) limit2))
    = Some [Some (errorString 1); Some (errorString 2)] /\
  [Some (errorString 1)]
    `prefix_of` [Some (errorString 1); Some (errorString 2)].
Proof.
  assert (H1 : run second_failure (after one_failure limit2)
               = Some (after (one_failure ++ second_failure) limit2))
    by (vm_compute; reflexivity).
  assert (H2 : Wait (rn (after one_failure limit2))
               = Some [Some (errorString 1)]) by reflexivity.
  assert (H3 : Wait (rn (after (one_failure ++ second_failure) limit2))
               = Some [Some (errorString 1); Some (errorString 2)])
    by (vm_compute; reflexivity).
  split_and!; [exact H1|exact H2|exact H3|].
  exact (Wait_results_only_grow _ _ _ _ _ H1 H2 H3).
Defined.

(** ** Each task is called at most once *)

Lemma standard_causeForTaskSkip (c : context) :
  standard (causeForTaskSkip c) = true.
Proof.
  unfold causeForTaskSkip. by destruct (standard (Cause c)) eqn:E.
Qed.

(** X5: a task body is called at most once.  A call whose body was called
    holds what the body returned; a call that went past the context check
    without calling its body holds a non-nil error that [errors.Is]
    recognises as [context.Canceled] or [context.DeadlineExceeded], and
    this happens only when [r.ctx] is done. *)
Theorem task_body_runs_at_most_once pctx opts r w c :
  New pctx opts = Some r -> reachable r w -> c ∈ calls w ->
  runs c <= 1 /\
  (runs c = 1 -> past_check c = true /\ result c = f c) /\
  (skipped c = true ->
   result c <> None /\ standard (result c) = true /\
   Err (ctx (rn w)) <> None).
Proof.
  intros Hnew Hreach Hc.
  pose proof (inv_reachable _ _ _ _ Hnew Hreach) as Hinv.
  pose proof (inv_calls _ Hinv) as Hcalls.
  rewrite Forall_forall in Hcalls. apply list_elem_of_In in Hc.
  specialize (Hcalls c Hc). unfold call_ok, skipped in *.
  destruct (past_check c); simpl.
  - destruct Hcalls as [[[Hr Hres]|(Hr & Hdone & Hres)] _].
    + split_and!; [lia|done|]. intros H. apply bool_decide_eq_true in H. lia.
    + split_and!; [lia|lia|]. intros _. rewrite Hres.
      split_and!;
        [apply causeForTaskSkip_not_nil|apply standard_causeForTaskSkip|done].
  - destruct Hcalls as [_ Hr]. split_and!; [lia|lia|done].
Qed.

Lemma task_body_runs_at_most_once_witness :
  New None [WithLimit 2] = Some limit2 /\
  reachable limit2 (after one_failure limit2) /\
  mkCall (Some (errorString 1)) (Some (errorString 1)) Exited 1
    ∈ calls (after one_failure limit2) /\
  runs (mkCall (Some (errorString 1)) (Some (errorString 1)) Exited 1) <= 1.
Proof.
  assert (H1 : New None [WithLimit 2] = Some limit2) by reflexivity.
  assert (H2 : reachable limit2 (after one_failure limit2))
    by (exists one_failure; reflexivity).
  assert (H3 : mkCall (Some (errorString 1)) (Some (errorString 1)) Exited 1
               ∈ calls (after one_failure limit2)) by (by left).
  split_and!; [exact H1|exact H2|exact H3|].
  exact (proj1 (task_body_runs_at_most_once _ _ _ _ _ H1 H2 H3)).
Defined.

(** ** Errors and successes add up *)

(** The body was called and returned nil. *)
Definition succeeded (c : call) : bool :=
  bool_decide (runs c = 1) && bool_decide (f c = None).

Lemma omap_length_count {A B : Type} (g : A -> option B) (p : A -> bool)
    (l : list A) :
  Forall (fun x => g x = None <-> p x = true) l ->
  length (omap g l) + count p l = length l.
Proof.
  induction 1 as [|x l Hx _ IH]; csimpl; [done|].
  destruct (g x) eqn:Hg, (p x) eqn:Hp; simpl; try lia.
  - destruct Hx as [_ Hx]. by specialize (Hx eq_refl).
  - destruct Hx as [Hx _]. by specialize (Hx eq_refl).
Qed.

(** X6: at the join every call of [Go] is accounted for exactly once,
    whatever the options and whatever happened to the context: the
    number of errors [Wait] returns plus the number of tasks whose body
    was called and returned nil is the number of calls of [Go]. *)
Theorem errors_and_successes_add_up pctx opts r w es :
  New pctx opts = Some r -> reachable r w -> joined w = true ->
  Wait (rn w) = Some es ->
  length es + count succeeded (calls w) = length (calls w).
Proof.
  intros Hnew Hreach Hj Hwait.
  pose proof (inv_reachable _ _ _ _ Hnew Hreach) as Hinv.
  unfold Wait, Clone in Hwait. case_bool_decide; simplify_eq.
  rewrite (inv_errs _ Hinv), length_fmap. apply omap_length_count.
  pose proof (joined_quiesced _ Hinv Hj) as Hq.
  pose proof (inv_calls _ Hinv) as Hcalls.
  rewrite Forall_forall in Hq, Hcalls. apply Forall_forall. intros c Hc.
  specialize (Hq c Hc). specialize (Hcalls c Hc).
  rewrite (recorded_quiesced _ Hq).
  unfold call_ok in Hcalls. rewrite (quiesced_past_check _ Hq) in Hcalls.
  unfold succeeded.
  destruct Hcalls as [[[Hr Hres]|(Hr & _ & Hres)] _].
  - rewrite Hres, (bool_decide_true (runs c = 1)) by done. simpl.
    split; intros Hn; [by apply bool_decide_eq_true|].
    by apply bool_decide_eq_true in Hn.
  - rewrite (bool_decide_false (runs c = 1)) by lia. simpl.
    split; [|done]. rewrite Hres. intros Hn.
    by apply causeForTaskSkip_not_nil in Hn.
Qed.

Lemma errors_and_successes_add_up_witness :
  New None [WithLimit 2] = Some limit2 /\
  reachable limit2 (after mixed_batch limit2) /\
  joined (after mixed_batch limit2) = true /\
  Wait (rn (after mixed_batch limit2)) = Some [Some (errorString 1)] /\
  length [Some (errorString 1)]
    + count succeeded (calls (after mixed_batch limit2))
  = length (calls (after mixed_batch limit2)).
Proof.
  assert (H1 : New None [WithLimit 2] = Some limit2) by reflexivity.
  assert (H2 : reachable limit2 (after mixed_batch limit2))
    by (exists mixed_batch; vm_compute; reflexivity).
  assert (H3 : joined (after mixed_batch limit2) = true)
    by (vm_compute; reflexivity).
  assert (H4 : Wait (rn (after mixed_batch limit2))
               = Some [Some (errorString 1)]) by (vm_compute; reflexivity).
  split_and!; [exact H1|exact H2|exact H3|exact H4|].
  exact (errors_and_successes_add_up _ _ _ _ _ H1 H2 H3 H4).
Defined.

(** ** A context that is done admits no task *)

Lemma run_idle_at sched w w' i :
  run sched w = Some w' -> Err (ctx (rn w)) <> None ->
  (forall c, calls w !! i = Some c -> idle c) ->
  forall c, calls w' !! i = Some c -> idle c.
Proof.
  revert w. induction sched as [|l sched IH]; intros w Hrun Hdone Hidle.
  - simpl in Hrun. by simplify_eq.
  - rewrite run_cons in Hrun.
    destruct (step l w) as [w1|] eqn:Hstep; [|done]. simpl in Hrun.
    destruct (step_frame _ _ _ Hstep) as (_ & _ & Hctx & _).
    specialize (Hctx Hdone).
    eapply IH; [done|by rewrite Hctx|].
    intros c1 Hc1.
    destruct l as [f0|j|how]; simpl in Hstep.
    + simplify_eq/=.
      apply lookup_app_Some in Hc1 as [Hc1|[_ Hc1]]; [by apply Hidle|].
      apply list_lookup_singleton_Some in Hc1 as [_ <-]. by split.
    + destruct (calls w !! j) as [c|] eqn:Hj; [|done]. simpl in Hstep.
      destruct (action c (rn w)) as [[r' c']|] eqn:Hact; simplify_eq/=.
      destruct (decide (j = i)) as [->|Hne].
      * rewrite list_lookup_insert_eq in Hc1 by by eapply lookup_lt_Some.
        simplify_eq. eapply action_idle; [done|done|]. by apply Hidle.
      * rewrite list_lookup_insert_ne in Hc1 by done. by apply Hidle.
    + simplify_eq/=. by apply Hidle.
Qed.

(** X7: once [r.ctx] is done, by the failure of a task or by the
    caller, no further task body is called: a call of [Go] made later,
    or one that had not reached the context check yet, never runs its
    body, and once past the check it holds the non-nil error
    [causeForTaskSkip] makes of the cause the context had when it
    ended. *)
Theorem done_context_admits_no_task pctx opts r w0 sched w i c :
  New pctx opts = Some r -> reachable r w0 ->
  Err (ctx (rn w0)) <> None ->
  (forall c0, calls w0 !! i = Some c0 ->
     past_check c0 = false /\ at_ c0 <> AtCall) ->
  run sched w0 = Some w -> calls w !! i = Some c ->
  runs c = 0 /\ at_ c <> AtCall /\
  (past_check c = true ->
   result c = causeForTaskSkip (ctx (rn w0)) /\ result c <> None).
Proof.
  intros Hnew Hreach Hdone Hi Hrun Hc.
  pose proof (inv_reachable _ _ _ _ Hnew Hreach) as Hinv0.
  assert (idle c) as [Hruns Hat].
  { eapply (run_idle_at _ _ _ i Hrun Hdone); [|done].
    intros c0 Hc0. destruct (Hi c0 Hc0) as [Hpast Hat]. split; [|done].
    eapply not_past_check_runs; [done| |done].
    apply list_elem_of_lookup. eauto. }
  split_and!; [done|done|]. intros Hpast.
  assert (reachable r w) as Hreach'.
  { destruct Hreach as [s0 Hs0]. exists (s0 ++ sched).
    by rewrite run_app, Hs0. }
  destruct (skipped_result _ _ _ w c Hnew Hreach') as [_ Hres].
  { apply list_elem_of_lookup. eauto. }
  { unfold skipped. rewrite Hpast. simpl. by apply bool_decide_eq_true. }
  destruct (run_frame _ _ _ Hrun) as (_ & _ & Hctx & _).
  rewrite Hres, (Hctx Hdone). split; [done|]. apply causeForTaskSkip_not_nil.
Qed.

(** The caller cancels its context between two tasks. *)
Definition cancelled_midway : list label :=
  (Go None :: through 0 7) ++ [End (ByCancel None)].

Lemma done_context_admits_no_task_witness :
  New None [] = Some unlimited /\
  reachable unlimited (after cancelled_midway unlimited) /\
  Err (ctx (rn (after cancelled_midway unlimited))) <> None /\
  run (Go None :: through 1 7) (after cancelled_midway unlimited)
    = Some (after (cancelled_midway ++ Go None :: through 1 7) unlimited) /\
  calls (after (cancelled_midway ++ Go None :: through 1 7) unlimited) !! 1
    = Some (mkCall None (Some Canceled) Exited 0) /\
  runs (mkCall None (Some Canceled) Exited 0) = 0.
Proof.
  assert (H1 : New None [] = Some unlimited) by reflexivity.
  assert (H2 : reachable unlimited (after cancelled_midway unlimited))
    by (exists cancelled_midway; vm_compute; reflexivity).
  assert (H3 : Err (ctx (rn (after cancelled_midway unlimited))) <> None)
    by (vm_compute; discriminate).
  assert (H4 : forall c0,
             calls (after cancelled_midway unlimited) !! 1 = Some c0 ->
             past_check c0 = false /\ at_ c0 <> AtCall)
    by (intros c0 Hc0; vm_compute in Hc0; discriminate).
  assert (H5 : run (Go None :: through 1 7) (after cancelled_midway unlimited)
               = Some (after (cancelled_midway ++ Go None :: through 1 7)
                         unlimited))
    by (vm_compute; reflexivity).
  assert (H6 : calls (after (cancelled_midway ++ Go None :: through 1 7)
                        unlimited) !! 1
               = Some (mkCall None (Some Canceled) Exited 0))
    by (vm_compute; reflexivity).
  split_and!; [exact H1|exact H2|exact H3|exact H5|exact H6|].
  exact (proj1 (done_context_admits_no_task _ _ _ _ _ _ _ _ H1 H2 H3 H4 H5 H6)).
Defined.

(** ** A task that has started is not interrupted *)

Lemma action_past_check c r r' c' :
  action c r = Some (r', c') -> past_check c = true ->
  past_check c' = true /\ result c' = result c /\ runs c' = runs c /\
  f c' = f c.
Proof.
  unfold action, maybeSemInc, maybeSemDec, wg_Done, past_check.
  intros Hact Hpast.
  destruct (at_ c) eqn:Hat; simpl in Hact; try done.
  all: repeat match type of Hact with
       | context [if ?b then _ else _] => destruct b eqn:?
       | context [match ?x with _ => _ end] => destruct x eqn:?
       end; simplify_option_eq; done.
Qed.

(** The call is still [c0], or its body has returned since. *)
Definition finished_from (c0 c : call) : Prop :=
  c = c0 \/
  (past_check c = true /\ runs c = S (runs c0) /\ result c = f c0 /\
   f c = f c0).

Lemma run_started sched w w' i c0 c :
  run sched w = Some w' -> at_ c0 = AtCall ->
  calls w !! i = Some c -> finished_from c0 c ->
  exists c', calls w' !! i = Some c' /\ finished_from c0 c'.
Proof.
  intros Hrun Hat0. revert w c Hrun.
  induction sched as [|l sched IH]; intros w c Hrun Hi Hfin.
  - simpl in Hrun. simplify_eq. eauto.
  - rewrite run_cons in Hrun.
    destruct (step l w) as [w1|] eqn:Hstep; [|done]. simpl in Hrun.
    destruct l as [f0|j|how]; simpl in Hstep.
    + simplify_eq/=. eapply IH; [done| |done]. simpl.
      by apply lookup_app_l_Some.
    + destruct (calls w !! j) as [cj|] eqn:Hj; [|done]. simpl in Hstep.
      destruct (action cj (rn w)) as [[r' c']|] eqn:Hact; simplify_eq/=.
      destruct (decide (j = i)) as [->|Hne].
      * simplify_eq. eapply (IH _ c'); [done| |].
        { simpl. apply list_lookup_insert_eq. by eapply lookup_lt_Some. }
        destruct Hfin as [->|(Hpast & Hr & Hres & Hf)].
        -- right. unfold action in Hact. rewrite Hat0 in Hact.
           by simplify_eq.
        -- right.
           destruct (action_past_check _ _ _ _ Hact Hpast)
             as (? & ? & ? & ?).
           split_and!; congruence.
      * eapply IH; [done| |done]. simpl.
        by rewrite list_lookup_insert_ne.
    + simplify_eq/=. eapply IH; [done|done|done].
Qed.

(** X8: cancellation does not reach into a task that has started.  A
    call whose body is executing stays as it is until the body returns,
    whatever happens to the context meanwhile; then it holds what the
    body returned, the body having been called exactly once, and once
    the goroutine is past [r.wg.Done()] a non-nil return value is in the
    collector. *)
Theorem running_task_is_not_interrupted pctx opts r w0 sched w i c0 c :
  New pctx opts = Some r -> reachable r w0 ->
  calls w0 !! i = Some c0 -> at_ c0 = AtCall ->
  run sched w0 = Some w -> calls w !! i = Some c ->
  c = c0 \/
  (past_check c = true /\ runs c = 1 /\ result c = f c0 /\
   (quiesced c = true -> f c0 <> None -> f c0 ∈ errs (rn w))).
Proof.
  intros Hnew Hreach Hi Hat Hrun Hc.
  pose proof (inv_reachable _ _ _ _ Hnew Hreach) as Hinv0.
  pose proof (inv_run _ _ _ Hinv0 Hrun) as Hinv.
  assert (runs c0 = 0) as Hr0.
  { apply (not_past_check_runs w0 c0 Hinv0).
    - apply list_elem_of_lookup. eauto.
    - unfold past_check. by rewrite Hat. }
  destruct (run_started _ _ _ i c0 c0 Hrun Hat Hi) as (c' & Hc' & Hfin);
    [by left|].
  rewrite Hc in Hc'. simplify_eq.
  destruct Hfin as [->|(Hpast & Hr & Hres & Hf)]; [by left|right].
  split_and!; [done|lia|done|]. intros Hq Hne.
  destruct (f c0) as [e|] eqn:He; [|done].
  eapply recorded_in_errs; [done| |].
  - apply list_elem_of_lookup. eauto.
  - by rewrite (recorded_quiesced _ Hq).
Qed.

(** The second task is running when the first one fails and cancels
    the context. *)
Definition overlapping : list label :=
  [Go (Some (errorString 1)); Go (Some (errorString 2))] ++ through 1 3.

Lemma running_task_is_not_interrupted_witness :
  New None [WithCancelOnFailure] = Some cancelling /\
  reachable cancelling (after overlapping cancelling) /\
  calls (after overlapping cancelling) !! 1
    = Some (mkCall (Some (errorString 2)) None AtCall 0) /\
  run (through 0 8 ++ through 1 5) (after overlapping cancelling)
    = Some (after (overlapping ++ through 0 8 ++ through 1 5) cancelling) /\
  calls (after (overlapping ++ through 0 8 ++ through 1 5) cancelling) !! 1
    = Some (mkCall (Some (errorString 2)) (Some (errorString 2)) Exited 1) /\
  Err (ctx (rn (after (overlapping ++ through 0 8) cancelling)))
    = Some Canceled /\
  (mkCall (Some (errorString 2)) (Some (errorString 2)) Exited 1
     = mkCall (Some (errorString 2)) None AtCall 0 \/
   runs (mkCall (Some (errorString 2)) (Some (errorString 2)) Exited 1) = 1).
Proof.
  assert (H1 : New None [WithCancelOnFailure] = Some cancelling)
    by reflexivity.
  assert (H2 : reachable cancelling (after overlapping cancelling))
    by (exists overlapping; vm_compute; reflexivity).
  assert (H3 : calls (after overlapping cancelling) !! 1
               = Some (mkCall (Some (errorString 2)) None AtCall 0))
    by (vm_compute; reflexivity).
  assert (H4 : at_ (mkCall (Some (errorString 2)) None AtCall 0) = AtCall)
    by reflexivity.
  assert (H5 : run (through 0 8 ++ through 1 5)
                 (after overlapping cancelling)
               = Some (after (overlapping ++ through 0 8 ++ through 1 5)
                         cancelling))
    by (vm_compute; reflexivity).
  assert (H6 : calls (after (overlapping ++ through 0 8 ++ through 1 5)
                        cancelling) !! 1
               = Some (mkCall (Some (errorString 2)) (Some (errorString 2))
                         Exited 1))
    by (vm_compute; reflexivity).
  split_and!; [exact H1|exact H2|exact H3|exact H5|exact H6|
               vm_compute; reflexivity|].
  destruct (running_task_is_not_interrupted _ _ _ _ _ _ _ _ _
              H1 H2 H3 H4 H5 H6) as [Heq|(_ & Hr & _)];
    [left; exact Heq|right; exact Hr].
Defined.

(** ** The caller's context is never cancelled by the runner *)

Lemma run_parent sched w w' :
  run sched w = Some w' ->
  Forall (fun l => forall how, l <> End how) sched ->
  parent (rn w') = parent (rn w).
Proof.
  intros Hrun Hno. revert w Hrun.
  induction Hno as [|l sched Hl _ IH]; intros w Hrun.
  - simpl in Hrun. by simplify_eq.
  - rewrite run_cons in Hrun.
    destruct (step l w) as [w1|] eqn:Hstep; [|done]. simpl in Hrun.
    rewrite (IH _ Hrun).
    destruct l as [f0|i|how]; simpl in Hstep.
    + by simplify_eq/=.
    + destruct (calls w !! i) as [c|]; [|done]. simpl in Hstep.
      destruct (action c (rn w)) as [[r' c']|] eqn:Hact; simplify_eq/=.
      by destruct (action_frame _ _ _ _ Hact) as (_ & Hp & _).
    + by destruct (Hl how).
Qed.

(** X9: the runner never cancels the context it was given.  As long as
    the caller leaves that context alone it stays as it was passed to
    [New], however many tasks fail; cancel-on-failure cancels a context
    of the runner's own.  Without cancel-on-failure nothing is cancelled
    at all: no cancel function is ever called and [r.ctx] is the
    caller's context throughout. *)
Theorem runner_never_cancels_the_caller pctx opts r sched w :
  New pctx opts = Some r -> run sched (start r) = Some w ->
  Forall (fun l => forall how, l <> End how) sched ->
  parent (rn w) = pctx /\
  (CancelOnFailure (configure opts) = false ->
   ctx (rn w) = pctx /\ attempts (rn w) = [] /\ cancel_calls (rn w) = []).
Proof.
  intros Hnew Hrun Hno.
  destruct (New_fields _ _ _ Hnew) as (Hp & Hder & _ & _).
  assert (parent (rn w) = pctx) as Hpw.
  { rewrite (run_parent _ _ _ Hrun Hno). done. }
  split; [done|]. intros Hcof. rewrite Hcof in Hder.
  assert (reachable r w) as Hreach by by exists sched.
  pose proof (inv_reachable _ _ _ _ Hnew Hreach) as Hinv.
  destruct (reachable_frame _ _ Hreach) as [_ Hsc].
  assert (ShouldCancel (rn w) = false) as Hsc'.
  { rewrite Hsc. unfold ShouldCancel. rewrite Hder.
    apply bool_decide_eq_false. by intros []. }
  assert (attempts (rn w) = []) as Hatt.
  { pose proof (inv_attempts _ Hinv) as Hatt. rewrite Hsc' in Hatt.
    by apply Permutation_nil_r. }
  split_and!; [|done|by rewrite (inv_cancel_calls _ Hinv), Hatt].
  unfold ShouldCancel in Hsc'. apply bool_decide_eq_false in Hsc'.
  unfold ctx. destruct (derived (rn w)); [|done].
  exfalso. apply Hsc'. eauto.
Qed.

Lemma runner_never_cancels_the_caller_witness :
  New None [WithCancelOnFailure] = Some cancelling /\
  run two_failures (start cancelling)
    = Some (after two_failures cancelling) /\
  Forall (fun l => forall how, l <> End how) two_failures /\
  Err (ctx (rn (after two_failures cancelling))) = Some Canceled /\
  parent (rn (after two_failures cancelling)) = None.
Proof.
  assert (H1 : New None [WithCancelOnFailure] = Some cancelling)
    by reflexivity.
  assert (H2 : run two_failures (start cancelling)
               = Some (after two_failures cancelling))
    by (vm_compute; reflexivity).
  assert (H3 : Forall (fun l => forall how, l <> End how) two_failures)
    by (repeat (constructor; [intros how; discriminate|]); constructor).
  split_and!; [exact H1|exact H2|exact H3|vm_compute; reflexivity|].
  exact (proj1 (runner_never_cancels_the_caller _ _ _ _ _ H1 H2 H3)).
Defined.

(** ** Options *)

(** The limit an option sets, if it sets one. *)
Definition limit_of (opt : Option) : option N :=
  match opt with
  | WithLimit limit => Some limit
  | WithCancelOnFailure => None
  end.

Lemma configure_CancelOnFailure opts :
  CancelOnFailure (configure opts) = true <-> WithCancelOnFailure ∈ opts.
Proof.
  induction opts as [|opt opts IH] using rev_ind.
  - split; [done|]. intros H. by apply elem_of_nil in H.
  - rewrite configure_snoc, elem_of_app, list_elem_of_singleton.
    destruct opt as [|n]; simpl.
    + split; auto.
    + rewrite IH. split; [auto|]. by intros [?|?].
Qed.

Lemma configure_Limit opts :
  Limit (configure opts) = last (omap limit_of opts) 0%N.
Proof.
  induction opts as [|opt opts IH] using rev_ind; [done|].
  rewrite configure_snoc, omap_app. destruct opt as [|n]; csimpl.
  - by rewrite app_nil_r.
  - by rewrite last_last.
Qed.

(** X10: [New] applies its options in the order given.  Cancel-on-failure
    is on exactly when [WithCancelOnFailure] is among them (no option
    turns it off again); of several [WithLimit] options the last one
    decides the capacity of the semaphore, and there is a limit exactly
    when that last value is positive. *)
Theorem options_apply_in_order pctx opts r :
  New pctx opts = Some r ->
  (ShouldCancel r = true <-> WithCancelOnFailure ∈ opts) /\
  sem_cap r = N.to_nat (last (omap limit_of opts) 0%N) /\
  (hasLimit r = true <-> (0 < last (omap limit_of opts) 0)%N).
Proof.
  intros Hnew. destruct (New_fields _ _ _ Hnew) as (_ & Hder & Hcap & _).
  rewrite configure_Limit in Hcap. split_and!; [|done|].
  - rewrite <- configure_CancelOnFailure. unfold ShouldCancel.
    rewrite Hder. destruct (CancelOnFailure (configure opts)).
    + split; [done|]. intros _. apply bool_decide_eq_true. by eexists.
    + split; [|done]. intros H. apply bool_decide_eq_true in H. by destruct H.
  - unfold hasLimit. rewrite bool_decide_eq_true, Hcap. lia.
Qed.

Lemma options_apply_in_order_witness :
  New None [WithLimit 5; WithCancelOnFailure; WithLimit 2]
    = Some (mkRunner None (Some None) false 0 [] 2 0 [] []) /\
  sem_cap (mkRunner None (Some None) false 0 [] 2 0 [] []) = 2.
Proof.
  assert (H1 : New None [WithLimit 5; WithCancelOnFailure; WithLimit 2]
               = Some (mkRunner None (Some None) false 0 [] 2 0 [] []))
    by reflexivity.
  split; [exact H1|].
  exact (proj1 (proj2 (options_apply_in_order _ _ _ H1))).
Defined.

(** ** When [Wait] returns and when [Go] blocks *)

(** X11: [Wait] blocks exactly while some call of [Go] is between
    [r.wg.Add(1)] and [r.wg.Done()]; when it returns, it returns the
    content of the collector as it is then.  A call of [Go] that has
    not reached [r.wg.Add(1)] yet (it may be waiting for a slot) is not
    waited for. *)
Theorem Wait_blocks_while_in_flight pctx opts r w :
  New pctx opts = Some r -> reachable r w ->
  (Wait (rn w) = None <-> exists c, c ∈ calls w /\ in_wg c = true) /\
  (Wait (rn w) = Some (errs (rn w)) <->
   Forall (fun c => in_wg c = false) (calls w)).
Proof.
  intros Hnew Hreach.
  pose proof (inv_reachable _ _ _ _ Hnew Hreach) as Hinv.
  pose proof (inv_wg _ Hinv) as Hwg. unfold Wait, Clone.
  split; split.
  - case_bool_decide as Hz; [done|]. intros _.
    destruct (decide (Forall (fun c => in_wg c = false) (calls w)))
      as [Hall|Hex].
    { apply count_none in Hall. lia. }
    apply not_Forall_Exists in Hex; [|solve_decision].
    apply Exists_exists in Hex as (c & Hc & Hin). simpl in Hin.
    exists c. split; [by apply list_elem_of_In|].
    by destruct (in_wg c).
  - intros (c & Hc & Hin). pose proof (count_pos _ _ _ Hc Hin).
    rewrite bool_decide_false by lia. done.
  - case_bool_decide as Hz; [|done]. intros _. apply count_zero. lia.
  - intros Hall. apply count_none in Hall.
    rewrite bool_decide_true by lia. done.
Qed.

Lemma Wait_blocks_while_in_flight_witness :
  New None [WithLimit 2] = Some limit2 /\
  reachable limit2 (after three_calls limit2) /\
  Wait (rn (after three_calls limit2)) = None /\
  exists c, c ∈ calls (after three_calls limit2) /\ in_wg c = true.
Proof.
  assert (H1 : New None [WithLimit 2] = Some limit2) by reflexivity.
  assert (H2 : reachable limit2 (after three_calls limit2))
    by (exists three_calls; vm_compute; reflexivity).
  assert (H3 : Wait (rn (after three_calls limit2)) = None)
    by (vm_compute; reflexivity).
  split_and!; [exact H1|exact H2|exact H3|].
  exact (proj1 (proj1 (Wait_blocks_while_in_flight _ _ _ _ H1 H2)) H3).
Defined.

(** X12: with a limit, a call of [Go] waits in [r.maybeSemInc()] exactly
    while as many calls hold a slot as the limit allows: it is admitted
    as soon as fewer do, and never while the semaphore is full. *)
Theorem Go_blocks_exactly_when_full pctx opts r w i c :
  New pctx opts = Some r -> reachable r w ->
  calls w !! i = Some c -> at_ c = AtSemInc ->
  (step (Act i) w = None <->
   (0 < Limit (configure opts))%N /\
   count holds_slot (calls w) = N.to_nat (Limit (configure opts))).
Proof.
  intros Hnew Hreach Hi Hat.
  pose proof (inv_reachable _ _ _ _ Hnew Hreach) as Hinv.
  destruct (New_fields _ _ _ Hnew) as (_ & _ & Hcap & _).
  destruct (reachable_frame _ _ Hreach) as [Hcapw _].
  pose proof (inv_sem _ Hinv) as Hsem. pose proof (inv_cap _ Hinv) as Hle.
  simpl. rewrite Hi. simpl. unfold action. rewrite Hat.
  unfold maybeSemInc, hasLimit in *.
  case_bool_decide as Hlim; [|split; [done|lia]].
  case_bool_decide as Hfree; csimpl; split; try done; lia.
Qed.

Lemma Go_blocks_exactly_when_full_witness :
  New None [WithLimit 2] = Some limit2 /\
  reachable limit2 (after three_calls limit2) /\
  calls (after three_calls limit2) !! 1
    = Some (mkCall None None AtSemInc 0) /\
  step (Act 1) (after three_calls limit2) = None /\
  count holds_slot (calls (after three_calls limit2))
  = N.to_nat (Limit (configure [WithLimit 2])).
Proof.
  assert (H1 : New None [WithLimit 2] = Some limit2) by reflexivity.
  assert (H2 : reachable limit2 (after three_calls limit2))
    by (exists three_calls; vm_compute; reflexivity).
  assert (H3 : calls (after three_calls limit2) !! 1
               = Some (mkCall None None AtSemInc 0))
    by (vm_compute; reflexivity).
  assert (H4 : at_ (mkCall None None AtSemInc 0) = AtSemInc) by reflexivity.
  assert (H5 : step (Act 1) (after three_calls limit2) = None)
    by (vm_compute; reflexivity).
  split_and!; [exact H1|exact H2|exact H3|exact H5|].
  exact (proj2 (proj1 (Go_blocks_exactly_when_full _ _ _ _ _ _ H1 H2 H3 H4)
                  H5)).
Defined.

(** * rwguarded/map.go: a map behind a read-write lock *)

(** A call returns or panics. *)
Inductive outcome (A : Type) : Type :=
| Returns (a : A)
| Panics.

Arguments Returns {A} a.
Arguments Panics {A}.

(** [errors.New("key not found")], allocated once when the package is
    initialised. *)
Definition ErrUpdateKeyNotFound : errval := errorString 0.

Section rwguarded.
Context {K V : Type}.

(** Go's [==] on the key type [K], and the test the runtime makes before
    it hashes a key: [K comparable] admits interface types, and a map
    operation whose key is an interface value of a dynamic type that
    cannot be hashed (a slice, a map, a function) panics.  [==] is
    symmetric and transitive but not reflexive: a NaN is not equal to
    itself. *)
Context (eqb : K -> K -> bool) (hashable : K -> bool).

(** The zero value of [V]. *)
Context (zero : V).

Hypothesis eqb_sym : forall a b, eqb a b = eqb b a.
Hypothesis eqb_trans :
  forall a b c, eqb a b = true -> eqb b c = true -> eqb a c = true.

(** ** Go's built-in map *)

(** A Go map is its entries; their order cannot be observed through the
    methods of [Map].  The three functions below are the runtime's
    access, assignment and [delete], for a key that has been hashed. *)
Fixpoint mapaccess (key : K) (m : list (K * V)) : option V :=
  match m with
  | [] => None
  | (k, v) :: m' => if eqb k key then Some v else mapaccess key m'
  end.

Fixpoint mapassign (key : K) (value : V) (m : list (K * V))
    : list (K * V) :=
  match m with
  | [] => [(key, value)]
  | (k, v) :: m' =>
      if eqb k key then (key, value) :: m'
      else (k, v) :: mapassign key value m'
  end.

Fixpoint mapdelete (key : K) (m : list (K * V)) : list (K * V) :=
  match m with
  | [] => []
  | (k, v) :: m' => if eqb k key then m' else (k, v) :: mapdelete key m'
  end.

(** No two entries of a map have keys that are [==]. *)
Fixpoint wf (m : list (K * V)) : Prop :=
  match m with
  | [] => True
  | (k, _) :: m' => mapaccess k m' = None /\ wf m'
  end.

(** ** The methods of [Map] *)

(** [valueByKey] of a [Map] made by [NewMap], the map the lock guards,
    is the state.  Every method but [StoreIfAbsent] holds the lock from
    its first statement to its return, so it is one atomic function of
    the map; it gives back the map as it is when the method returns or
    panics (the deferred [Unlock] runs in both cases). *)
Definition NewMap : list (K * V) := [].

Definition Clear (m : list (K * V)) : list (K * V) := [].

Definition Count (m : list (K * V)) : nat := length m.

Fixpoint Delete (keys : list K) (m : list (K * V))
    : outcome unit * list (K * V) :=
  match keys with
  | [] => (Returns tt, m)
  | k :: keys' =>
      if hashable k then Delete keys' (mapdelete k m) else (Panics, m)
  end.

Definition Load (key : K) (m : list (K * V)) : outcome (V * bool) :=
  if hashable key then
    match mapaccess key m with
    | Some value => Returns (value, true)
    | None => Returns (zero, false)
    end
  else Panics.

Definition Store (key : K) (value : V) (m : list (K * V))
    : outcome unit * list (K * V) :=
  if hashable key then (Returns tt, mapassign key value m) else (Panics, m).

(** [valueCtor] is called with no lock held: it may use the map itself
    (the source names a constructor that calls [StoreIfAbsent]), and
    other goroutines may write while it runs.  It is therefore a
    function of the map as it is after the first check to the pointer
    and error it returns and the map as it is when the writer lock is
    taken.  A nil pointer is [None]; [*valPtr] panics on it.  The
    constructor itself is taken to return. *)
Definition StoreIfAbsent (key : K)
    (valueCtor : list (K * V) -> (option V * error) * list (K * V))
    (m : list (K * V)) : outcome (bool * error) * list (K * V) :=
  if hashable key then
    if bool_decide (is_Some (mapaccess key m)) then (Returns (false, None), m)
    else
      let '((valPtr, err), m1) := valueCtor m in
      if bool_decide (err <> None) then (Returns (false, err), m1)
      else if bool_decide (is_Some (mapaccess key m1))
      then (Returns (false, None), m1)
      else
        match valPtr with
        | Some value => (Returns (true, None), mapassign key value m1)
        | None => (Panics, m1)
        end
  else (Panics, m).

(** [updater] is called under the writer lock, so it cannot use the
    map: it is a function of the value alone, and is taken to return. *)
Definition Update (key : K) (updater : V -> V * error) (m : list (K * V))
    : outcome error * list (K * V) :=
  if hashable key then
    match mapaccess key m with
    | None => (Returns (Some ErrUpdateKeyNotFound), m)
    | Some gotVal =>
        let '(gotVal', err) := updater gotVal in
        if bool_decide (err <> None) then (Returns err, m)
        else (Returns None, mapassign key gotVal' m)
    end
  else (Panics, m).

(** The map [StoreIfAbsent] decides on: the one it is called with when
    the key is there already, the one the constructor leaves
    otherwise. *)
Definition decided_on (key : K)
    (valueCtor : list (K * V) -> (option V * error) * list (K * V))
    (m : list (K * V)) : list (K * V) :=
  if bool_decide (is_Some (mapaccess key m)) then m else (valueCtor m).2.

(** ** The built-in map *)

Lemma eqb_refl_l a b : eqb a b = true -> eqb b b = true.
Proof using eqb_sym eqb_trans.
  intros Hab. apply (eqb_trans b a b); [by rewrite eqb_sym|done].
Qed.

(** Keys that are [==] find the same entry. *)
Lemma mapaccess_eqb a b m : eqb a b = true -> mapaccess a m = mapaccess b m.
Proof using eqb_sym eqb_trans.
  intros Hab. induction m as [|[k v] m IH]; simpl; [done|]. rewrite IH.
  destruct (eqb k a) eqn:Hka, (eqb k b) eqn:Hkb; try done.
  - by rewrite (eqb_trans k a b) in Hkb.
  - rewrite (eqb_trans k b a) in Hka; [done|done|by rewrite eqb_sym].
Qed.

(** A key that is not equal to itself is never found. *)
Lemma mapaccess_irreflexive key m :
  eqb key key = false -> mapaccess key m = None.
Proof using eqb_sym eqb_trans.
  intros Hk. induction m as [|[k v] m IH]; simpl; [done|].
  destruct (eqb k key) eqn:Hkk; [|done].
  by rewrite (eqb_refl_l _ _ Hkk) in Hk.
Qed.

Lemma mapaccess_found key m v :
  mapaccess key m = Some v -> eqb key key = true.
Proof using eqb_sym eqb_trans.
  intros Hm. destruct (eqb key key) eqn:Hk; [done|].
  by rewrite mapaccess_irreflexive in Hm.
Qed.

Lemma mapaccess_mapassign key value m :
  eqb key key = true -> mapaccess key (mapassign key value m) = Some value.
Proof.
  intros Hk. induction m as [|[k v] m IH]; simpl; [by rewrite Hk|].
  destruct (eqb k key) eqn:Hkk; simpl; [by rewrite Hk|by rewrite Hkk].
Qed.

Lemma mapaccess_mapassign_ne k key value m :
  eqb k key = false -> mapaccess k (mapassign key value m) = mapaccess k m.
Proof using eqb_sym eqb_trans.
  intros Hk. induction m as [|[k0 v0] m IH]; simpl.
  - by rewrite eqb_sym, Hk.
  - destruct (eqb k0 key) eqn:H0; simpl.
    + rewrite (eqb_sym key k), Hk.
      destruct (eqb k0 k) eqn:H1; [|done].
      rewrite (eqb_trans k k0 key) in Hk; [done|by rewrite eqb_sym|done].
    + by rewrite IH.
Qed.

Lemma length_mapassign key value m :
  length (mapassign key value m)
  = match mapaccess key m with
    | Some _ => length m
    | None => S (length m)
    end.
Proof.
  induction m as [|[k v] m IH]; simpl; [done|].
  destruct (eqb k key); simpl; [done|]. rewrite IH.
  by destruct (mapaccess key m).
Qed.

Lemma wf_mapassign key value m : wf m -> wf (mapassign key value m).
Proof using eqb_sym eqb_trans.
  induction m as [|[k v] m IH]; simpl; [done|]. intros [Hk Hwf].
  destruct (eqb k key) eqn:Hkk; simpl.
  - split; [|done]. by rewrite <- (mapaccess_eqb k key).
  - split; [|by apply IH]. rewrite mapaccess_mapassign_ne; [done|done].
Qed.

Lemma mapaccess_mapdelete key m :
  wf m -> mapaccess key (mapdelete key m) = None.
Proof using eqb_sym eqb_trans.
  induction m as [|[k v] m IH]; simpl; [done|]. intros [Hk Hwf].
  destruct (eqb k key) eqn:Hkk; simpl.
  - by rewrite <- (mapaccess_eqb k key).
  - rewrite Hkk. by apply IH.
Qed.

Lemma mapaccess_mapdelete_ne k key m :
  eqb k key = false -> mapaccess k (mapdelete key m) = mapaccess k m.
Proof using eqb_sym eqb_trans.
  intros Hk. induction m as [|[k0 v0] m IH]; simpl; [done|].
  destruct (eqb k0 key) eqn:H0; simpl.
  - destruct (eqb k0 k) eqn:H1; [|done].
    rewrite (eqb_trans k k0 key) in Hk; [done|by rewrite eqb_sym|done].
  - by rewrite IH.
Qed.

Lemma mapdelete_absent key m : mapaccess key m = None -> mapdelete key m = m.
Proof.
  induction m as [|[k v] m IH]; simpl; [done|].
  destruct (eqb k key); [done|]. intros Hm. by rewrite IH.
Qed.

Lemma length_mapdelete key m : length (mapdelete key m) <= length m.
Proof.
  induction m as [|[k v] m IH]; simpl; [done|].
  destruct (eqb k key); simpl; lia.
Qed.

Lemma wf_mapdelete key m : wf m -> wf (mapdelete key m).
Proof using eqb_sym eqb_trans.
  induction m as [|[k v] m IH]; simpl; [done|]. intros [Hk Hwf].
  destruct (eqb k key) eqn:Hkk; simpl; [done|].
  split; [|by apply IH]. by rewrite mapaccess_mapdelete_ne.
Qed.

(** ** [StoreIfAbsent] *)

(** X13: [StoreIfAbsent] never replaces a value.  When it returns, the
    key could be hashed; it has written at most the given key, and only
    when it returns true: then the key was absent at the call and at the
    writer lock, the map has one entry more, and a key that is equal to
    itself holds the constructed value afterwards (a NaN key is stored
    but still not found).  When it returns false the map is left as
    found; with a nil error a key that is equal to itself is present
    then (already at the call, or written while the constructor ran,
    whose own value is then discarded), with a non-nil error the error
    is the constructor's.  A map without two equal keys stays so. *)
Theorem StoreIfAbsent_never_replaces key valueCtor m ok err m' :
  StoreIfAbsent key valueCtor m = (Returns (ok, err), m') ->
  hashable key = true /\
  (forall k, eqb k key = false ->
     Load k m' = Load k (decided_on key valueCtor m)) /\
  (forall value, mapaccess key (decided_on key valueCtor m) = Some value ->
     ok = false /\ Load key m' = Returns (value, true)) /\
  (ok = false -> m' = decided_on key valueCtor m) /\
  (ok = true ->
   err = None /\ mapaccess key m = None /\
   mapaccess key (decided_on key valueCtor m) = None /\
   Count m' = S (Count (decided_on key valueCtor m)) /\
   exists value,
     (valueCtor m).1.1 = Some value /\
     Load key m'
     = Returns (if eqb key key then (value, true) else (zero, false))) /\
  (err = None -> eqb key key = true ->
   exists value, Load key m' = Returns (value, true)) /\
  (err <> None -> mapaccess key m = None /\ err = (valueCtor m).1.2) /\
  (wf (decided_on key valueCtor m) -> wf m').
Proof using eqb_sym eqb_trans.
  unfold StoreIfAbsent, decided_on, Load, Count.
  destruct (hashable key) eqn:Hh; intros Hs; [|done]. split; [done|].
  case_bool_decide as Hm.
  { simplify_eq. destruct Hm as [v Hv]. rewrite Hv.
    split_and!; try done; [by intros value [= <-]|by eexists]. }
  assert (mapaccess key m = None) as Hnone.
  { destruct (mapaccess key m); [|done]. exfalso. apply Hm. by eexists. }
  destruct (valueCtor m) as [[valPtr e] m1]; simpl in *.
  case_bool_decide as He.
  { simplify_eq. split_and!; try done.
    intros value Hv. by rewrite Hv. }
  assert (e = None) as ->
    by (destruct e; [|done]; first [done | exfalso; by apply He]).
  case_bool_decide as Hm1.
  { simplify_eq. destruct Hm1 as [v Hv]. rewrite Hv.
    split_and!; try done; [by intros value [= <-]|by eexists]. }
  assert (mapaccess key m1 = None) as Hnone1.
  { destruct (mapaccess key m1); [|done]. exfalso. apply Hm1. by eexists. }
  destruct valPtr as [value|]; [|done]. simplify_eq.
  assert (mapaccess key (mapassign key value m1)
          = if eqb key key then Some value else None) as Hafter.
  { destruct (eqb key key) eqn:Hk; [by apply mapaccess_mapassign|].
    by apply mapaccess_irreflexive. }
  split_and!; try done.
  - intros k Hk. by rewrite mapaccess_mapassign_ne.
  - intros v Hv. by rewrite Hv in Hnone1.
  - intros _. split_and!; try done.
    + by rewrite length_mapassign, Hnone1.
    + exists value. split; [done|]. rewrite Hafter. by destruct (eqb key key).
  - intros _ Hk. rewrite Hafter, Hk. by eexists.
  - apply wf_mapassign.
Qed.


(** X15: the first writer wins, for a key that is equal to itself.  On
    the map a [StoreIfAbsent] that returned a nil error has left, a
    second [StoreIfAbsent] for the same key returns false and nil
    without calling its constructor, and leaves the map as it is.  For a
    key that is not equal to itself (a NaN) there is no first writer:
    every [StoreIfAbsent] whose constructor returns a value stores it
    and returns true, and the map grows by one entry each time. *)
Theorem StoreIfAbsent_first_writer_wins key ctor1 ctor2 m ok m1 :
  StoreIfAbsent key ctor1 m = (Returns (ok, None), m1) ->
  (eqb key key = true ->
   StoreIfAbsent key ctor2 m1 = (Returns (false, None), m1)) /\
  (eqb key key = false ->
   forall value m2, ctor2 m1 = ((Some value, None), m2) ->
     StoreIfAbsent key ctor2 m1
       = (Returns (true, None), mapassign key value m2) /\
     Count (mapassign key value m2) = S (Count m2) /\
     Load key (mapassign key value m2) = Returns (zero, false)).
Proof using eqb_sym eqb_trans.
  intros Hs.
  assert (hashable key = true) as Hh.
  { revert Hs. unfold StoreIfAbsent. by destruct (hashable key). }
  split.
  - intros Hk.
    assert (is_Some (mapaccess key m1)) as Hin; [|unfold StoreIfAbsent;
      by rewrite Hh, bool_decide_true].
    unfold StoreIfAbsent in Hs. rewrite Hh in Hs.
    case_bool_decide as Hm; [by simplify_eq|].
    destruct (ctor1 m) as [[valPtr e] m0]; simpl in *.
    case_bool_decide as He; [simplify_eq; by destruct He|].
    case_bool_decide as Hm0; [by simplify_eq|].
    destruct valPtr; [|done]. simplify_eq.
    rewrite mapaccess_mapassign by done. by eexists.
  - intros Hk value m2 Hc. unfold StoreIfAbsent, Count, Load.
    rewrite Hh, Hc, !mapaccess_irreflexive by done.
    rewrite (bool_decide_false (is_Some None)) by by intros [].
    rewrite (bool_decide_false (None <> None)) by (intros Hn; by apply Hn).
    split_and!; [done| |done].
    by rewrite length_mapassign, mapaccess_irreflexive.
Qed.

(** ** [Update] *)

(** X16: [Update] changes the value of one existing key and nothing
    else: it never adds or removes an entry.  When it returns, the key
    could be hashed.  For a key that is absent, and so for every key
    that is not equal to itself, it returns [ErrUpdateKeyNotFound]
    without calling [updater]; when [updater] returns an error it
    returns that error and the old value stays; otherwise the key holds
    the value [updater] returned.  With a key that cannot be hashed it
    panics and leaves the map alone. *)
Theorem Update_changes_one_value key updater m err m' :
  Update key updater m = (Returns err, m') ->
  hashable key = true /\
  Count m' = Count m /\
  (forall k, is_Some (mapaccess k m') <-> is_Some (mapaccess k m)) /\
  (forall k, eqb k key = false -> Load k m' = Load k m) /\
  (err <> None -> m' = m) /\
  (mapaccess key m = None -> err = Some ErrUpdateKeyNotFound) /\
  (eqb key key = false -> err = Some ErrUpdateKeyNotFound) /\
  (forall gotVal, mapaccess key m = Some gotVal ->
     err = (updater gotVal).2 /\
     (err = None -> Load key m' = Returns ((updater gotVal).1, true))) /\
  (wf m -> wf m') /\
  (forall key0, hashable key0 = false ->
     Update key0 updater m = (Panics, m)).
Proof using eqb_sym eqb_trans.
  intros Hu.
  assert (forall key0, hashable key0 = false ->
            Update key0 updater m = (Panics, m)) as Hpanic.
  { intros key0 Hk0. unfold Update. by rewrite Hk0. }
  revert Hu. unfold Update, Load, Count in *.
  destruct (hashable key) eqn:Hh; intros Hu; [|done]. split; [done|].
  destruct (mapaccess key m) as [gotVal|] eqn:Hm.
  2:{ simplify_eq. split_and!; try done. }
  pose proof (mapaccess_found _ _ _ Hm) as Hk.
  destruct (updater gotVal) as [gotVal' e] eqn:Hup; simpl in *.
  case_bool_decide as He.
  { simplify_eq. split_and!; try done.
    - intros Hk'. by rewrite Hk' in Hk.
    - intros g [= <-]. by rewrite Hup. }
  assert (e = None) as ->
    by (destruct e; [|done]; first [done | exfalso; by apply He]).
  simplify_eq. split_and!; try done.
  - by rewrite length_mapassign, Hm.
  - intros k. destruct (eqb k key) eqn:Hkk.
    + rewrite !(mapaccess_eqb k key) by done.
      rewrite mapaccess_mapassign, Hm by done. split; by eexists.
    + by rewrite mapaccess_mapassign_ne.
  - intros k Hkk. by rewrite mapaccess_mapassign_ne.
  - intros Hk'. by rewrite Hk' in Hk.
  - intros g [= <-]. rewrite Hup. split; [done|]. intros _.
    by rewrite mapaccess_mapassign.
  - apply wf_mapassign.
Qed.

(** ** [Delete] *)

Lemma Delete_returns keys m m' :
  Delete keys m = (Returns tt, m') ->
  Forall (fun k => hashable k = true) keys /\
  m' = foldl (fun m k => mapdelete k m) m keys.
Proof.
  revert m. induction keys as [|k keys IH]; intros m; simpl.
  - intros [= <-]. by split.
  - destruct (hashable k) eqn:Hh; [|done]. intros Hd.
    destruct (IH _ Hd) as [? ?]. split; [by constructor|done].
Qed.

Lemma mapaccess_foldl_mapdelete keys m k :
  wf m ->
  mapaccess k (foldl (fun m k => mapdelete k m) m keys)
  = if existsb (fun k' => eqb k' k) keys then None else mapaccess k m.
Proof using eqb_sym eqb_trans.
  revert m. induction keys as [|k0 keys IH]; intros m Hwf; simpl; [done|].
  rewrite IH by by apply wf_mapdelete.
  destruct (eqb k0 k) eqn:Hk; simpl.
  - rewrite <- (mapaccess_eqb k0 k) by done.
    rewrite mapaccess_mapdelete by done. by destruct (existsb _ keys).
  - rewrite mapaccess_mapdelete_ne by by rewrite eqb_sym. done.
Qed.

(** X17: [Delete] removes exactly the given keys from a map without two
    equal keys.  When it returns, every key could be hashed; afterwards
    a key that is equal to one of those given is missing, however often
    it is listed and whether it was there or not; every other key keeps
    its value; the count does not grow; no two keys are equal still;
    and deleting keys that are all absent, among them every key that is
    not equal to itself, changes nothing.  With a key that cannot be
    hashed [Delete] panics, after it has removed the keys listed before
    that one. *)
Theorem Delete_removes_exactly_the_keys keys m m' :
  wf m -> Delete keys m = (Returns tt, m') ->
  Forall (fun k => hashable k = true) keys /\
  (forall k, existsb (fun k' => eqb k' k) keys = true ->
     mapaccess k m' = None) /\
  (forall k, existsb (fun k' => eqb k' k) keys = false ->
     mapaccess k m' = mapaccess k m) /\
  Count m' <= Count m /\
  wf m' /\
  (Forall (fun k => mapaccess k m = None) keys -> m' = m) /\
  (Forall (fun k => eqb k k = false) keys -> m' = m) /\
  (forall key0 keys0, hashable key0 = false ->
     Delete (keys ++ key0 :: keys0) m = (Panics, m')).
Proof using eqb_sym eqb_trans.
  intros Hwf Hd. destruct (Delete_returns _ _ _ Hd) as [Hh ->].
  assert (forall keys m, Forall (fun k => mapaccess k m = None) keys ->
            foldl (fun m k => mapdelete k m) m keys = m) as Habs.
  { clear. intros keys. induction keys as [|k keys IH]; intros m Hall;
      simpl; [done|].
    inversion_clear Hall as [|? ? Hk Hks].
    rewrite (mapdelete_absent _ _ Hk). by apply IH. }
  split_and!; [done| | | | |by apply Habs| |].
  - intros k Hk. by rewrite mapaccess_foldl_mapdelete, Hk.
  - intros k Hk. by rewrite mapaccess_foldl_mapdelete, Hk.
  - unfold Count. clear. revert m.
    induction keys as [|k keys IH]; intros m; simpl; [done|].
    etrans; [apply IH|apply length_mapdelete].
  - clear Hd Hh Habs. revert m Hwf.
    induction keys as [|k keys IH]; intros m Hwf; simpl; [done|].
    apply IH. by apply wf_mapdelete.
  - intros Hnan. apply Habs. eapply Forall_impl; [|exact Hnan].
    intros k Hk. simpl in Hk. by apply mapaccess_irreflexive.
  - intros key0 keys0 Hk0. clear Hwf Hd Habs. revert m.
    induction Hh as [|k keys Hk _ IH]; intros m; simpl.
    + by rewrite Hk0.
    + rewrite Hk. apply IH.
Qed.

(** ** [Store] and [Load] *)

(** X18: what [Store] writes under a key that is equal to itself, [Load]
    reads back.  With a key that can be hashed [Store] returns; it sets
    the value of its key, overwriting an old one, and touches no other
    key; the count grows by one exactly when the key was absent; no two
    keys are equal still; after [Delete] of the key or after [Clear],
    [Load] reports it missing.  A key that is not equal to itself (a
    NaN) is stored but never found: [Load] reports it missing and each
    [Store] adds an entry.  With a key that cannot be hashed, [Store]
    and [Load] panic and the map is left alone. *)
Theorem Store_then_Load key value m :
  (hashable key = true ->
   Store key value m = (Returns tt, mapassign key value m) /\
   Load key (mapassign key value m)
   = Returns (if eqb key key then (value, true) else (zero, false)) /\
   (forall k, eqb k key = false ->
      Load k (mapassign key value m) = Load k m) /\
   Count (mapassign key value m)
   = match mapaccess key m with
     | Some _ => Count m
     | None => S (Count m)
     end /\
   (eqb key key = false ->
    Load key m = Returns (zero, false) /\
    Count (mapassign key value m) = S (Count m)) /\
   (wf m ->
    wf (mapassign key value m) /\
    exists m',
      Delete [key] (mapassign key value m) = (Returns tt, m') /\
      Load key m' = Returns (zero, false)) /\
   Load key (Clear (mapassign key value m)) = Returns (zero, false)) /\
  (hashable key = false ->
   Store key value m = (Panics, m) /\ Load key m = Panics) /\
  Count (Clear m) = 0.
Proof using eqb_sym eqb_trans.
  unfold Store, Load, Count, Clear. split_and!; [| |done].
  2:{ by intros ->. }
  intros Hh. rewrite Hh. split_and!; try done.
  - destruct (eqb key key) eqn:Hk.
    + by rewrite mapaccess_mapassign.
    + by rewrite mapaccess_irreflexive.
  - intros k Hk. by rewrite mapaccess_mapassign_ne.
  - apply length_mapassign.
  - intros Hk. rewrite length_mapassign, !mapaccess_irreflexive by done.
    done.
  - intros Hwf. pose proof (wf_mapassign key value m Hwf) as Hwf'.
    split; [done|]. simpl. rewrite Hh. eexists. split; [done|].
    by rewrite mapaccess_mapdelete.
Qed.

End rwguarded.

(** ** A key type with a NaN *)

(** Keys as a floating-point type has them: numbers, and a NaN that is
    not equal to anything. *)
Inductive float : Type :=
| num (n : nat)
| NaN.

Definition float_eqb (a b : float) : bool :=
  match a, b with
  | num x, num y => Nat.eqb x y
  | _, _ => false
  end.

Lemma float_eqb_sym a b : float_eqb a b = float_eqb b a.
Proof. destruct a, b; simpl; try done. apply Nat.eqb_sym. Qed.

Lemma float_eqb_trans a b c :
  float_eqb a b = true -> float_eqb b c = true -> float_eqb a c = true.
Proof.
  destruct a, b, c; simpl; try done.
  rewrite !Nat.eqb_eq. congruence.
Qed.

Definition constant (v : nat) (m : list (float * nat))
    : (option nat * error) * list (float * nat) :=
  ((Some v, None), m).

(** A constructor that calls [StoreIfAbsent] for the key it is called
    for, and so stores a value of its own there. *)
Definition reentrant (m : list (float * nat))
    : (option nat * error) * list (float * nat) :=
  ((Some 10, None),
   (StoreIfAbsent float_eqb (fun _ => true) (num 1) (constant 7) m).2).

Lemma StoreIfAbsent_never_replaces_witness :
  StoreIfAbsent float_eqb (fun _ => true) (num 1) reentrant []
    = (Returns (false, None), [(num 1, 7)]) /\
  Load float_eqb (fun _ => true) 0 (num 1) [(num 1, 7)] = Returns (7, true).
Proof.
  assert (H1 : StoreIfAbsent float_eqb (fun _ => true) (num 1) reentrant []
               = (Returns (false, None), [(num 1, 7)])) by reflexivity.
  assert (H2 : mapaccess float_eqb (num 1)
                 (decided_on float_eqb (num 1) reentrant []) = Some 7)
    by reflexivity.
  split; [exact H1|].
  exact (proj2 (proj1 (proj2 (proj2
           (StoreIfAbsent_never_replaces float_eqb (fun _ => true) 0
              float_eqb_sym float_eqb_trans _ _ _ _ _ _ H1))) 7 H2)).
Defined.

Lemma StoreIfAbsent_first_writer_wins_witness :
  StoreIfAbsent float_eqb (fun _ => true) NaN (constant 10) []
    = (Returns (true, None), [(NaN, 10)]) /\
  StoreIfAbsent float_eqb (fun _ => true) NaN (constant 20) [(NaN, 10)]
    = (Returns (true, None), [(NaN, 10); (NaN, 20)]) /\
  Count [(NaN, 10); (NaN, 20)] = 2 /\
  Load float_eqb (fun _ => true) 0 NaN [(NaN, 10); (NaN, 20)]
    = Returns (0, false).
Proof.
  assert (H1 : StoreIfAbsent float_eqb (fun _ => true) NaN (constant 10) []
               = (Returns (true, None), [(NaN, 10)])) by reflexivity.
  assert (H2 : float_eqb NaN NaN = false) by reflexivity.
  assert (H3 : constant 20 [(NaN, 10)] = ((Some 20, None), [(NaN, 10)]))
    by reflexivity.
  split; [exact H1|].
  exact (proj2 (StoreIfAbsent_first_writer_wins float_eqb (fun _ => true) 0
                  float_eqb_sym float_eqb_trans _ _ (constant 20) _ _ _ H1)
           H2 20 [(NaN, 10)] H3).
Defined.

Lemma Update_changes_one_value_witness :
  Update float_eqb (fun _ => true) (num 1) (fun v => (v + 1, None))
    [(num 1, 10); (num 2, 20)]
    = (Returns None, [(num 1, 11); (num 2, 20)]) /\
  Count [(num 1, 11); (num 2, 20)] = Count [(num 1, 10); (num 2, 20)].
Proof.
  assert (H1 : Update float_eqb (fun _ => true) (num 1)
                 (fun v => (v + 1, None)) [(num 1, 10); (num 2, 20)]
               = (Returns None, [(num 1, 11); (num 2, 20)])) by reflexivity.
  split; [exact H1|].
  exact (proj1 (proj2 (Update_changes_one_value float_eqb (fun _ => true) 0
                         float_eqb_sym float_eqb_trans _ _ _ _ _ H1))).
Defined.

Lemma Delete_removes_exactly_the_keys_witness :
  wf float_eqb [(num 1, 10); (NaN, 5); (num 2, 20); (NaN, 6)] /\
  Delete float_eqb (fun _ => true) [num 2; NaN; num 3; num 2]
    [(num 1, 10); (NaN, 5); (num 2, 20); (NaN, 6)]
    = (Returns tt, [(num 1, 10); (NaN, 5); (NaN, 6)]) /\
  Count [(num 1, 10); (NaN, 5); (NaN, 6)]
    <= Count [(num 1, 10); (NaN, 5); (num 2, 20); (NaN, 6)].
Proof.
  assert (H1 : wf float_eqb [(num 1, 10); (NaN, 5); (num 2, 20); (NaN, 6)])
    by (simpl; tauto).
  assert (H2 : Delete float_eqb (fun _ => true) [num 2; NaN; num 3; num 2]
                 [(num 1, 10); (NaN, 5); (num 2, 20); (NaN, 6)]
               = (Returns tt, [(num 1, 10); (NaN, 5); (NaN, 6)]))
    by reflexivity.
  split_and!; [exact H1|exact H2|].
  exact (proj1 (proj2 (proj2 (proj2
           (Delete_removes_exactly_the_keys float_eqb (fun _ => true)
              float_eqb_sym float_eqb_trans _ _ _ H1 H2))))).
Defined.

Lemma Store_then_Load_witness :
  Store float_eqb (fun _ => true) (num 1) 11 [(num 1, 10); (NaN, 5)]
    = (Returns tt, [(num 1, 11); (NaN, 5)]) /\
  Store float_eqb (fun _ => true) NaN 6 [(num 1, 10); (NaN, 5)]
    = (Returns tt, [(num 1, 10); (NaN, 5); (NaN, 6)]) /\
  Load float_eqb (fun _ => true) 0 NaN [(num 1, 10); (NaN, 5); (NaN, 6)]
    = Returns (0, false).
Proof.
  split_and!; [reflexivity|reflexivity|].
  exact (proj1 (proj2 (proj1
           (Store_then_Load float_eqb (fun _ => true) 0
              float_eqb_sym float_eqb_trans NaN 6 [(num 1, 10); (NaN, 5)])
           eq_refl))).
Defined.
